(** * Harris County patrol project: the modelling pipeline of
    [scripts/modeling.py], embedded in Rocq.

    The script chains four stages:
    - [generate_patrol_points]   synthetic demand points per precinct,
    - [optimize_patrol_stations] K-means station placement per precinct,
    - [analyze_service_coverage] nearest-station assignment and service areas,
    - [calculate_equity_metrics] Gini-like index and coverage ratio.

    Numbers are Python / NumPy [float64] values; they are embedded as Rocq's
    primitive binary64 floats, so that the special values (infinity, NaN,
    signed zeros) and the rounding of every single operation are those of
    the program.  Python integers are [Z].  Dictionaries are [gmap]s.
    The columns that pandas sums have an element type ([Dtype]), so that
    what holds of any column and what needs an addition that does not round
    can be told apart.
    pandas, shapely, scikit-learn and the random generator are outside the
    repository: they enter through the interfaces [Pandas], [Shapely],
    [Sklearn] and a stream of draws.  In particular the order in which
    pandas adds up a column is the library's own (pairwise in blocks for
    [Series.sum], compensated for the group-by sum and mean): the stages
    take these sums from [Pandas]. *)

From Stdlib Require Import Floats ZArith QArith Qround Lia.
From stdpp Require Import base list gmap strings pretty sorting.

Set Warnings "-inexact-float".

(** * Binary64 helpers *)

Module F64.

Local Open Scope float_scope.

(** Conversion of an integer to [float64] (round to nearest even), as done
    by [int * float] in Python and by [int64 * float64] in NumPy. *)
Definition of_Z (z : Z) : float :=
  SF2Prim (binary_normalize prec emax z 0 false).

(** Python's [int(x)] on a float: truncation towards zero.  [None] stands
    for the [ValueError] (NaN) or [OverflowError] (infinity) it raises. *)
Definition to_int (x : float) : option Z :=
  match Prim2SF x with
  | S754_zero _ => Some 0%Z
  | S754_finite s m e => Some (cond_Zopp s (Z.shiftl (Z.pos m) e))
  | S754_infinity _ | S754_nan => None
  end.

(** A float that is neither NaN nor an infinity. *)
Definition finite (x : float) : bool :=
  match Prim2SF x with
  | S754_zero _ | S754_finite _ _ _ => true
  | S754_infinity _ | S754_nan => false
  end.

(** A finite float different from both zeros. *)
Definition finite_nonzero (x : float) : bool :=
  match Prim2SF x with
  | S754_finite _ _ _ => true
  | _ => false
  end.

(** A zero of either sign, or NaN: the values that [x * 0] can take. *)
Definition zero_or_nan (x : float) : bool :=
  match Prim2SF x with
  | S754_zero _ | S754_nan => true
  | _ => false
  end.

(** The exact rational value of a finite float (0 for the others). *)
Definition exact (x : float) : Q :=
  match Prim2SF x with
  | S754_finite s m e =>
      (inject_Z (cond_Zopp s (Z.pos m)) * Qpower 2 e)%Q
  | _ => 0%Q
  end.

#[global] Instance float_eq_dec : EqDecision float.
Proof.
  intros x y. destruct (Leibniz.eqb x y) eqn:E.
  - left. by apply Leibniz.eqb_spec.
  - right. intros H. apply Leibniz.eqb_spec in H. congruence.
Defined.

End F64.

(** * NumPy and pandas reductions *)

(** [np.sum] of a float array: accumulation from [0.0].  (NumPy adds in
    pairwise blocks once an array has 8 elements or more; the embedding adds
    from left to right.  No statement below depends on the order of the
    additions.) *)
Definition np_sum (a : list float) : float := foldl PrimFloat.add 0%float a.

(** [np.sort] of a float array without NaN, ascending. *)
Fixpoint sorted_insert (x : float) (a : list float) : list float :=
  match a with
  | [] => [x]
  | y :: a' => if (x <=? y)%float then x :: a else y :: sorted_insert x a'
  end.

Definition np_sort (a : list float) : list float := foldr sorted_insert [] a.

(** [np.arange(1, n + 1)]. *)
Definition np_arange1 (n : nat) : list Z := Z.of_nat <$> seq 1 n.

(** The element type of a pandas column that is summed: its zero, its
    addition and its missing-value test.  The program's columns are
    [float64]; [Z] is the same interface with exact addition. *)
Class Dtype (A : Type) := {
  dzero : A;
  dadd : A → A → A;
  isna : A → bool;
}.

#[global] Instance float64 : Dtype float :=
  {| dzero := 0%float; dadd := PrimFloat.add; isna := PrimFloat.is_nan |}.

#[global] Instance int64 : Dtype Z :=
  {| dzero := 0%Z; dadd := Z.add; isna := λ _, false |}.

(** The reductions of pandas that the pipeline calls on a column of type
    [A].  Which additions are made, and in which order, is the library's
    matter: [Series.sum] hands the column to NumPy, which adds from left to
    right below 8 values and in pairwise blocks from 8 values on; the sum
    and the mean of a group-by are compensated sums.  What is known of
    [Series.sum] whatever the order: the sum of an empty column is 0. *)
Class Pandas (A : Type) `{Dtype A} := {
  (** [Series.sum()] *)
  series_sum : list A → A;
  (** [groupby(...).agg(... 'sum')], for the rows of one group *)
  groupby_sum : list A → A;
  (** [groupby(...).agg(... 'mean')], for the rows of one group *)
  groupby_mean : list A → float;
  series_sum_nil : series_sum [] = dzero;
}.

(** The sum from left to right, missing values skipped: what [Series.sum]
    computes on a column of fewer than 8 values. *)
Definition sum_left_to_right `{Dtype A} (a : list A) : A :=
  foldl (λ acc x, if isna x then acc else dadd acc x) dzero a.

(** The compensated (Kahan) sum of pandas' group-by, missing values
    skipped: the running sum and the compensation, which is reset when it
    is NaN. *)
Definition compensated_step (acc : float * float) (val : float)
    : float * float :=
  let '(sumx, compensation) := acc in
  if PrimFloat.is_nan val then acc
  else
    let y := (val - compensation)%float in
    let t := (sumx + y)%float in
    let compensation := (t - sumx - y)%float in
    (t, if PrimFloat.is_nan compensation then 0%float else compensation).

Definition compensated_sum (a : list float) : float :=
  (foldl compensated_step (0%float, 0%float) a).1.

(** The mean of a group: the compensated sum over the number of values
    that are not missing. *)
Definition compensated_mean (a : list float) : float :=
  let present := filter (λ x, PrimFloat.is_nan x = false) a in
  (compensated_sum a / F64.of_Z (Z.of_nat (length present)))%float.

(** Columns of whole numbers: every order of the additions gives the same
    total. *)
#[global] Instance int64_pandas : Pandas Z := {|
  series_sum := sum_left_to_right;
  groupby_sum := sum_left_to_right;
  groupby_mean a :=
    (F64.of_Z (sum_left_to_right a) / F64.of_Z (Z.of_nat (length a)))%float;
  series_sum_nil := eq_refl;
|}.

(** A column type whose addition does not round and that has no missing
    value: the sums of pandas are then the plain sum, whatever the order in
    which the library adds. *)
Class Exact (A : Type) `{Pandas A} : Prop := {
  dadd_assoc : ∀ x y z : A, dadd x (dadd y z) = dadd (dadd x y) z;
  dadd_comm : ∀ x y : A, dadd x y = dadd y x;
  dadd_zero : ∀ x : A, dadd dzero x = x;
  isna_never : ∀ x : A, isna x = false;
  series_sum_exact : ∀ a : list A, series_sum a = foldr dadd dzero a;
  groupby_sum_exact : ∀ a : list A, groupby_sum a = foldr dadd dzero a;
}.

(** [Series.fillna(0)]. *)
Definition fillna0 `{Dtype A} (x : A) : A := if isna x then dzero else x.

(** * What a call can do *)

Inductive exn := ValueError | OverflowError | ClusteringError.

(** What [int(x)] raises on a float that it refuses: [ValueError] on NaN,
    [OverflowError] on an infinity. *)
Definition int_error (x : float) : exn :=
  if PrimFloat.is_nan x then ValueError else OverflowError.

(** A call returns, raises, or is still running when the fuel of the
    embedding is used up. *)
Inductive outcome (A : Type) : Type :=
  | Returns (a : A)
  | Raises (e : exn)
  | OutOfFuel.
Global Arguments Returns {A} a.
Global Arguments Raises {A} e.
Global Arguments OutOfFuel {A}.

#[global] Instance outcome_ret : MRet outcome := λ A a, Returns a.
#[global] Instance outcome_bind : MBind outcome := λ A B f m,
  match m with
  | Returns a => f a
  | Raises e => Raises e
  | OutOfFuel => OutOfFuel
  end.

(** * External libraries *)

(** A shapely [Point(x, y)]. *)
Definition Point : Type := float * float.

(** The operations of shapely / geopandas that the pipeline calls on a
    polygon and on points. *)
Class Shapely (geometry : Type) := {
  (** [geometry.bounds]: [(minx, miny, maxx, maxy)] *)
  bounds : geometry → float * float * float * float;
  (** [geometry.contains(point)] *)
  contains : geometry → Point → bool;
  (** [to_crs(epsg=3857).geometry.centroid] of a polygon *)
  centroid_3857 : geometry → Point;
  (** [to_crs(epsg=3857)] of a point *)
  to_3857 : Point → Point;
  (** [a.distance(b)] between two projected points, in metres *)
  distance : Point → Point → float;
}.

(** [StandardScaler().fit_transform], [KMeans(n_clusters=k,
    random_state=42).fit_predict] and [inverse_transform] of the cluster
    centers, as one call: the centers in the original scale and the label of
    every point; [None] when scikit-learn raises. *)
Class Sklearn := {
  kmeans_fit : nat → list Point → option (list Point * list nat);
}.

(** scikit-learn's guarantee: with [1 <= k <= n_samples] the fit succeeds
    and [cluster_centers_] has exactly [k] rows. *)
Definition kmeans_contract `{Sklearn} : Prop :=
  ∀ k coords, 1 ≤ k ≤ length coords →
    ∃ centers clusters,
      kmeans_fit k coords = Some (centers, clusters) ∧ length centers = k.

(** * Data *)

Record Precinct (geometry : Type) := {
  PCT_NUM : Z;
  precinct_geometry : geometry;
  precinct_area_sq_km : float;
}.
Global Arguments PCT_NUM {_} _.
Global Arguments precinct_geometry {_} _.
Global Arguments precinct_area_sq_km {_} _.

Record PatrolPoint := {
  point_geometry : Point;
  point_precinct : Z;
  patrol_id : string;
}.

Record Station := {
  station_geometry : Point;
  station_precinct : Z;
  station_id : string;
  cluster_size : nat;
}.

Record Zone (geometry A : Type) := {
  ZIP : string;
  zone_geometry : geometry;
  area_sq_km : A;
}.
Global Arguments ZIP {_ _} _.
Global Arguments zone_geometry {_ _} _.
Global Arguments area_sq_km {_ _} _.

(** A zip code row with the three columns added by the coverage analysis. *)
Record ServedZone (geometry A : Type) := {
  zone : Zone geometry A;
  nearest_station : option string;
  distance_km : float;
  zone_precinct : option Z;
}.
Global Arguments zone {_ _} _.
Global Arguments nearest_station {_ _} _.
Global Arguments distance_km {_ _} _.
Global Arguments zone_precinct {_ _} _.

(** A station row with the three columns merged in by the coverage
    analysis. *)
Record StationMetrics (A : Type) := {
  station : Station;
  service_area_sq_km : A;
  avg_distance_km : float;
  zipcode_count : Z;
}.
Global Arguments station {_} _.
Global Arguments service_area_sq_km {_} _.
Global Arguments avg_distance_km {_} _.
Global Arguments zipcode_count {_} _.

(** * Stage 1: [generate_patrol_points] *)

Section generate.
Context {geometry : Type} `{Shapely geometry} `{!Pandas float}.

(** The successive results of [random.random()]; the generator's state is
    the position of the next draw. *)
Variable draws : nat → float.

(** [random.uniform(a, b)], which is [a + (b - a) * random()]. *)
Definition uniform (a b : float) (pos : nat) : float * nat :=
  ((a + (b - a) * draws pos)%float, S pos).

(** Line 94 and the product of line 95: the float that [int()] is given. *)
Definition budget_share (num_points : Z)
    (constable_precincts : list (Precinct geometry))
    (precinct : Precinct geometry) : float :=
  let area_proportion :=
    (precinct_area_sq_km precinct /
     series_sum (precinct_area_sq_km <$> constable_precincts))%float in
  (F64.of_Z num_points * area_proportion)%float.

(** Line 95: the number of points of one precinct.  [None] when [int()]
    raises. *)
Definition precinct_quota (num_points : Z)
    (constable_precincts : list (Precinct geometry))
    (precinct : Precinct geometry) : option Z :=
  Z.max 5 <$> F64.to_int (budget_share num_points constable_precincts precinct).

(** One pass of the body of the [while] loop (lines 102-111): the candidate
    point and whether it is kept. *)
Definition candidate (precinct : Precinct geometry) (pos : nat) : Point * nat :=
  let '(minx, miny, maxx, maxy) := bounds (precinct_geometry precinct) in
  let '(x, pos) := uniform minx maxx pos in
  let '(y, pos) := uniform miny maxy pos in
  ((x, y), pos).

Definition new_point (precinct : Precinct geometry) (point : Point)
    (points : list PatrolPoint) : PatrolPoint :=
  {| point_geometry := point;
     point_precinct := PCT_NUM precinct;
     patrol_id := "P" +:+ pretty (PCT_NUM precinct) +:+ "_"
                  +:+ pretty (Z.of_nat (length points) + 1)%Z |}.

(** The rejection-sampling loop of lines 101-111.  The source has no bound
    on the number of passes; [fuel] bounds them here. *)
Fixpoint rejection_loop (fuel : nat) (precinct : Precinct geometry)
    (precinct_points : Z) (points : list PatrolPoint) (pos : nat)
    : outcome (list PatrolPoint * nat) :=
  if bool_decide (Z.of_nat (length points) < precinct_points)%Z then
    match fuel with
    | O => OutOfFuel
    | S fuel' =>
        let '(point, pos) := candidate precinct pos in
        if contains (precinct_geometry precinct) point
        then rejection_loop fuel' precinct precinct_points
               (points ++ [new_point precinct point points]) pos
        else rejection_loop fuel' precinct precinct_points points pos
    end
  else Returns (points, pos).

(** The [for] loop over the rows of [constable_precincts] (lines 92-113). *)
Fixpoint generate_rows (fuel : nat) (num_points : Z)
    (constable_precincts rows : list (Precinct geometry))
    (all_points : list PatrolPoint) (pos : nat)
    : outcome (list PatrolPoint * nat) :=
  match rows with
  | [] => Returns (all_points, pos)
  | precinct :: rows' =>
      match precinct_quota num_points constable_precincts precinct with
      | None =>
          Raises (int_error
                    (budget_share num_points constable_precincts precinct))
      | Some precinct_points =>
          '(points, pos) ← rejection_loop fuel precinct precinct_points [] pos;
          generate_rows fuel num_points constable_precincts rows'
            (all_points ++ points) pos
      end
  end.

(** The function.  Line 116 builds the frame with
    [gpd.GeoDataFrame(all_points, crs=...)]: from an empty list there is no
    geometry column to give the reference system to, and geopandas raises
    [ValueError]. *)
Definition generate_patrol_points (fuel : nat)
    (constable_precincts : list (Precinct geometry)) (num_points : Z)
    (pos : nat) : outcome (list PatrolPoint * nat) :=
  '(all_points, pos) ←
    generate_rows fuel num_points constable_precincts constable_precincts [] pos;
  match all_points with
  | [] => Raises ValueError
  | _ :: _ => Returns (all_points, pos)
  end.

(** A pass of the loop that starts at position [pos] keeps its point. *)
Definition accepted (precinct : Precinct geometry) (pos : nat) : bool :=
  contains (precinct_geometry precinct) (candidate precinct pos).1.

(** What the loop of one precinct contributes: as many points as its quota,
    all inside its polygon and carrying its number. *)
Definition precinct_chunk (num_points : Z)
    (constable_precincts : list (Precinct geometry))
    (precinct : Precinct geometry) (chunk : list PatrolPoint) : Prop :=
  ∃ n, F64.to_int (F64.of_Z num_points *
         (precinct_area_sq_km precinct /
          series_sum (precinct_area_sq_km <$> constable_precincts)))%float
       = Some n
    ∧ Z.of_nat (length chunk) = Z.max 5 n
    ∧ Forall (λ p, contains (precinct_geometry precinct) (point_geometry p)
                   = true) chunk
    ∧ Forall (λ p, point_precinct p = PCT_NUM precinct) chunk.

(** Whatever the position reached, some later pass is accepted: the loop
    of every precinct comes to an end. *)
Definition fair (constable_precincts : list (Precinct geometry)) : Prop :=
  ∀ precinct pos, precinct ∈ constable_precincts →
    ∃ n, accepted precinct (pos + 2 * n) = true.

End generate.

(** The count that the specification gives for a precinct:
    [max(5, round(total_point_budget * area / sum of areas))], on the exact
    values of the areas, [round] being the nearest integer. *)
Definition round_nearest (q : Q) : Z := Qfloor (q + (1 # 2))%Q.

Definition spec_precinct_points {geometry : Type} (num_points : Z)
    (constable_precincts : list (Precinct geometry))
    (precinct : Precinct geometry) : Z :=
  let total :=
    foldr Qplus 0%Q ((F64.exact ∘ precinct_area_sq_km) <$> constable_precincts) in
  Z.max 5 (round_nearest
    (inject_Z num_points * F64.exact (precinct_area_sq_km precinct) / total)%Q).

(** * Stage 2: [optimize_patrol_stations] *)

(** [Series.unique()]: the distinct values in order of first appearance. *)
Fixpoint unique_from (seen : list Z) (values : list Z) : list Z :=
  match values with
  | [] => []
  | v :: values' =>
      if decide (v ∈ seen) then unique_from seen values'
      else v :: unique_from (v :: seen) values'
  end.

Definition unique (values : list Z) : list Z := unique_from [] values.

Section optimize.
Context {geometry : Type} `{Sklearn}.

(** Lines 152-158: one station per cluster center, [enumerate]d from 0. *)
Definition make_stations (precinct_num : Z) (centers : list Point)
    (clusters : list nat) : list Station :=
  imap (λ i center,
    {| station_geometry := center;
       station_precinct := precinct_num;
       station_id := "S" +:+ pretty precinct_num +:+ "_"
                     +:+ pretty (Z.of_nat i + 1)%Z;
       cluster_size := length (filter (λ c, c = i) clusters) |}) centers.

(** The [for] loop over the distinct precinct numbers (lines 128-158). *)
Fixpoint optimize_loop (num_stations_per_precinct : nat)
    (patrol_points : list PatrolPoint) (precinct_nums : list Z)
    (optimal_stations : list Station) : outcome (list Station) :=
  match precinct_nums with
  | [] => Returns optimal_stations
  | precinct_num :: rest =>
      let precinct_points :=
        filter (λ p, point_precinct p = precinct_num) patrol_points in
      if bool_decide (length precinct_points < num_stations_per_precinct)
      then optimize_loop num_stations_per_precinct patrol_points rest
             optimal_stations
      else
        let coords := point_geometry <$> precinct_points in
        match kmeans_fit num_stations_per_precinct coords with
        | None => Raises ClusteringError
        | Some (centers, clusters) =>
            optimize_loop num_stations_per_precinct patrol_points rest
              (optimal_stations ++ make_stations precinct_num centers clusters)
        end
  end.

(** What one pass of the loop appends for [precinct_num]: nothing when the
    precinct has too few points, else the stations of a successful fit. *)
Definition precinct_block (num_stations_per_precinct : nat)
    (patrol_points : list PatrolPoint) (precinct_num : Z)
    (block : list Station) : Prop :=
  let precinct_points :=
    filter (λ p, point_precinct p = precinct_num) patrol_points in
  (length precinct_points < num_stations_per_precinct ∧ block = [])
  ∨ (num_stations_per_precinct ≤ length precinct_points
     ∧ ∃ centers clusters,
         kmeans_fit num_stations_per_precinct (point_geometry <$> precinct_points)
           = Some (centers, clusters)
         ∧ block = make_stations precinct_num centers clusters).

(** The function.  Line 161 builds the frame with
    [gpd.GeoDataFrame(optimal_stations, crs=...)], which raises
    [ValueError] when the list is empty, that is when every precinct was
    skipped. *)
Definition optimize_patrol_stations (patrol_points : list PatrolPoint)
    (constable_precincts : list (Precinct geometry))
    (num_stations_per_precinct : nat) : outcome (list Station) :=
  optimal_stations ←
    optimize_loop num_stations_per_precinct patrol_points
      (unique (PCT_NUM <$> constable_precincts)) [];
  match optimal_stations with
  | [] => Raises ValueError
  | _ :: _ => Returns optimal_stations
  end.

End optimize.

(** The facility identifier as the specification writes it:
    ["{precinct}_{index}"]. *)
Definition spec_facility_id (precinct index : Z) : string :=
  pretty precinct +:+ "_" +:+ pretty index.

(** * Stage 3: [analyze_service_coverage] *)

Section coverage.
Context {geometry A : Type} `{Shapely geometry} `{Dtype A}.
Context `{!Pandas A} `{!Pandas float}.

(** Line 196: the distance from the projected centroid of a zip code to a
    projected station. *)
Definition station_distance (zipcode : Zone geometry A) (station : Station)
    : float :=
  distance (centroid_3857 (zone_geometry zipcode))
           (to_3857 (station_geometry station)).

(** Lines 188-189: the dictionary from station id to precinct. *)
Definition build_station_precincts (patrol_stations : list Station)
    : gmap string Z :=
  foldl (λ station_precincts station,
           <[station_id station := station_precinct station]> station_precincts)
        ∅ patrol_stations.

(** Lines 195-200: one pass of the inner loop. *)
Definition scan_step (zipcode : Zone geometry A)
    (acc : float * option string) (station : Station)
    : float * option string :=
  let '(min_dist, nearest_station) := acc in
  let dist := station_distance zipcode station in
  if (dist <? min_dist)%float then (dist, Some (station_id station))
  else (min_dist, nearest_station).

(** Lines 192-200: the inner loop, from [(float('inf'), None)]. *)
Definition nearest_scan (zipcode : Zone geometry A)
    (patrol_stations : list Station) : float * option string :=
  foldl (scan_step zipcode) (infinity, None) patrol_stations.

(** Lines 191-206: the outer loop fills the two dictionaries, keyed by
    ZIP. *)
Definition assign_step (patrol_stations : list Station)
    (acc : gmap string float * gmap string (option string))
    (zipcode : Zone geometry A)
    : gmap string float * gmap string (option string) :=
  let '(distances, assignments) := acc in
  let '(min_dist, nearest_station) := nearest_scan zipcode patrol_stations in
  let min_dist_km := (min_dist / 1000)%float in
  (<[ZIP zipcode := min_dist_km]> distances,
   <[ZIP zipcode := nearest_station]> assignments).

Definition assign_zipcodes (patrol_stations : list Station)
    (zipcodes : list (Zone geometry A))
    : gmap string float * gmap string (option string) :=
  foldl (assign_step patrol_stations) (∅, ∅) zipcodes.

(** Lines 209-213: the three new columns, by [Series.map] of the
    dictionaries (a key that is absent maps to a missing value). *)
Definition add_service_columns (patrol_stations : list Station)
    (zipcodes : list (Zone geometry A)) : list (ServedZone geometry A) :=
  let '(distances, assignments) := assign_zipcodes patrol_stations zipcodes in
  let station_precincts := build_station_precincts patrol_stations in
  (λ zipcode,
     let nearest := default None (assignments !! ZIP zipcode) in
     {| zone := zipcode;
        nearest_station := nearest;
        distance_km := default nan (distances !! ZIP zipcode);
        zone_precinct := nearest ≫= (station_precincts !!.) |}) <$> zipcodes.

(** Line 216: [groupby('nearest_station')]; rows without a station are
    dropped. *)
Definition groupby_nearest_station (zipcodes : list (ServedZone geometry A))
    : gmap string (list (ServedZone geometry A)) :=
  foldl (λ groups zipcode,
           match nearest_station zipcode with
           | None => groups
           | Some key =>
               <[key := default [] (groups !! key) ++ [zipcode]]> groups
           end) ∅ zipcodes.

(** Lines 216-235: aggregation of every group (sum of the areas, mean of
    the distances, count of the ZIPs), left merge on [station_id], and
    [fillna(0)] of the three merged columns, which gives 0 to the stations
    that have no group. *)
Definition merge_service_area
    (groups : gmap string (list (ServedZone geometry A)))
    (patrol_station : Station) : StationMetrics A :=
  match groups !! station_id patrol_station with
  | Some rows =>
      {| station := patrol_station;
         service_area_sq_km :=
           fillna0 (groupby_sum ((area_sq_km ∘ zone) <$> rows));
         avg_distance_km := fillna0 (groupby_mean (distance_km <$> rows));
         zipcode_count := Z.of_nat (length rows) |}
  | None =>
      {| station := patrol_station;
         service_area_sq_km := dzero;
         avg_distance_km := 0%float;
         zipcode_count := 0 |}
  end.

Definition analyze_service_coverage (patrol_stations : list Station)
    (zipcodes : list (Zone geometry A))
    : list (StationMetrics A) * list (ServedZone geometry A) :=
  let zipcodes := add_service_columns patrol_stations zipcodes in
  let service_areas := groupby_nearest_station zipcodes in
  (merge_service_area service_areas <$> patrol_stations, zipcodes).

(** Every station is at a finite distance of every zip code. *)
Definition finite_distances (patrol_stations : list Station)
    (zipcodes : list (Zone geometry A)) : Prop :=
  Forall (λ zipcode,
    Forall (λ station, F64.finite (station_distance zipcode station) = true)
           patrol_stations) zipcodes.

(** What the inner loop has established after the stations [seen]. *)
Definition scan_invariant (zipcode : Zone geometry A) (seen : list Station)
    (acc : float * option string) : Prop :=
  Forall (λ s, (station_distance zipcode s <? acc.1)%float = false) seen
  ∧ ((seen = [] ∧ acc = (infinity, None))
     ∨ ∃ k s, seen !! k = Some s
         ∧ acc = (station_distance zipcode s, Some (station_id s))
         ∧ ∀ j s', (j < k)%nat → seen !! j = Some s' →
             (station_distance zipcode s <? station_distance zipcode s')%float
             = true).

End coverage.

(** * Stage 4: [calculate_equity_metrics] *)

Section equity.
Context {geometry : Type} `{!Pandas float}.

(** Lines 257-263: the Gini-like coefficient of the [distance_km]
    column. *)
Definition gini_of (distance_km : list float) : float :=
  let distances := filter (λ d, PrimFloat.is_nan d = false) distance_km in
  let distances := np_sort distances in
  let n := length distances in
  let index := np_arange1 n in
  let weights := (λ i, 2 * i - Z.of_nat n - 1)%Z <$> index in
  let weighted :=
    zip_with (λ w d, (F64.of_Z w * d)%float) weights distances in
  (np_sum weighted / (F64.of_Z (Z.of_nat n) * np_sum distances))%float.

(** Line 267: selection of the rows by a boolean mask. *)
Definition select_rows {T : Type} (rows : list T) (mask : list bool) : list T :=
  (zip rows mask) ≫= (λ '(row, keep), if keep : bool then [row] else []).

(** Lines 267-268 for a threshold [threshold_distance]. *)
Definition coverage_ratio_at (threshold_distance : float)
    (zipcodes : list (ServedZone geometry float)) : float :=
  let mask := (λ z, (distance_km z <=? threshold_distance)%float) <$> zipcodes in
  let covered_zipcodes := select_rows zipcodes mask in
  (series_sum ((area_sq_km ∘ zone) <$> covered_zipcodes) /
   series_sum ((area_sq_km ∘ zone) <$> zipcodes))%float.

(** Line 266. *)
Definition threshold_distance : Z := 10.

Record EquityMetrics := {
  gini_coefficient : float;
  coverage_ratio : float;
  threshold_distance_km : Z;
}.

(** The function, without the per-precinct table of lines 245-254, which
    no statement below is about. *)
Definition calculate_equity_metrics
    (zipcodes : list (ServedZone geometry float)) : EquityMetrics :=
  {| gini_coefficient := gini_of (distance_km <$> zipcodes);
     coverage_ratio :=
       coverage_ratio_at (F64.of_Z threshold_distance) zipcodes;
     threshold_distance_km := threshold_distance |}.

(** The coverage ratio in the words of the specification: the area of the
    zones whose distance is at most the threshold, over the area of all
    zones. *)
Definition spec_coverage_ratio (threshold_km : float)
    (zipcodes : list (ServedZone geometry float)) : float :=
  let within :=
    filter (λ z, (distance_km z <=? threshold_km)%float = true) zipcodes in
  (series_sum ((area_sq_km ∘ zone) <$> within) /
   series_sum ((area_sq_km ∘ zone) <$> zipcodes))%float.

End equity.

(** "Approximately [c]": equal to [c] once rounded to the two decimals that
    the specification quotes. *)
Definition approx2 (c x : float) : bool :=
  ((c - 0.005 <=? x) && (x <? c + 0.005))%float.

(** * A small setting on which the pipeline is run *)

Module Sample.

Local Open Scope float_scope.

(** A right triangle with its right angle at [(x0, y0)] and legs [w] and
    [h] along the axes. *)
Record Triangle := { x0 : float; y0 : float; w : float; h : float }.

#[global] Instance triangle_shapely : Shapely Triangle := {|
  bounds t := (x0 t, y0 t, x0 t + w t, y0 t + h t);
  contains t p :=
    (x0 t <? p.1) && (y0 t <? p.2)
    && ((p.1 - x0 t) / w t + (p.2 - y0 t) / h t <? 1);
  centroid_3857 t := (x0 t + w t / 3, y0 t + h t / 3);
  to_3857 p := p;
  distance p q :=
    sqrt ((p.1 - q.1) * (p.1 - q.1) + (p.2 - q.2) * (p.2 - q.2));
|}.

(** A stand-in for K-means: the first [k] points are the centers and point
    [i] gets label [i mod k]. *)
#[global] Instance first_centers : Sklearn := {|
  kmeans_fit k coords :=
    if decide (1 ≤ k ≤ length coords)
    then Some (take k coords, (λ i, i `mod` k) <$> seq 0 (length coords))
    else None;
|}.

(** The reductions of pandas on the short columns of this setting (none
    has 8 values): [Series.sum] adds from left to right, the group-by sum
    and mean are the compensated ones. *)
#[global] Instance short_columns : Pandas float := {|
  series_sum := sum_left_to_right;
  groupby_sum := compensated_sum;
  groupby_mean := compensated_mean;
  series_sum_nil := eq_refl;
|}.

(** A generator with period 4. *)
Definition draws (pos : nat) : float :=
  match pos `mod` 4 with
  | 0 => 0.75
  | 1 => 0.5
  | 2 => 0.25
  | _ => 0.25
  end.

Definition precinct1 : Precinct Triangle :=
  {| PCT_NUM := 1;
     precinct_geometry := {| x0 := 0; y0 := 0; w := 4; h := 38 |};
     precinct_area_sq_km := 76 |}.

Definition precinct2 : Precinct Triangle :=
  {| PCT_NUM := 2;
     precinct_geometry := {| x0 := 10; y0 := 0; w := 42; h := 44 |};
     precinct_area_sq_km := 924 |}.

Definition constable_precincts : list (Precinct Triangle) :=
  [precinct1; precinct2].

(** Four stations; the second and the third are at the same place. *)
Definition patrol_stations : list Station :=
  [ {| station_geometry := (9000, 0); station_precinct := 1;
       station_id := "S1_1"; cluster_size := 3 |};
    {| station_geometry := (3000, 4000); station_precinct := 1;
       station_id := "S1_2"; cluster_size := 2 |};
    {| station_geometry := (3000, 4000); station_precinct := 2;
       station_id := "S2_1"; cluster_size := 4 |};
    {| station_geometry := (-6000, 0); station_precinct := 2;
       station_id := "S2_2"; cluster_size := 1 |} ].

Definition zone_at {A : Type} (zip : string) (x y : float) (area : A)
    : Zone Triangle A :=
  {| ZIP := zip;
     zone_geometry := {| x0 := x - 1; y0 := y - 1; w := 3; h := 3 |};
     area_sq_km := area |}.

Definition zipcodes : list (Zone Triangle float) :=
  [ zone_at "77001" 0 0 12.5; zone_at "77002" 9000 300 7.25;
    zone_at "77003" (-5000) 10 30 ].

(** The same zones with areas in whole square metres. *)
Definition zipcodes_m2 : list (Zone Triangle Z) :=
  [ zone_at "77001" 0 0 12500000%Z; zone_at "77002" 9000 300 7250000%Z;
    zone_at "77003" (-5000) 10 30000000%Z ].

(** The points of a run of the generator from position 0. *)
Definition patrol_points : list PatrolPoint :=
  match generate_patrol_points draws 200 constable_precincts 100 0 with
  | Returns (points, _) => points
  | _ => []
  end.

(** The zip codes after the coverage analysis. *)
Definition served_zipcodes : list (ServedZone Triangle float) :=
  (analyze_service_coverage patrol_stations zipcodes).2.

(** Two zip codes whose centroid is a station. *)
Definition zero_distance_zipcodes : list (ServedZone Triangle float) :=
  [ {| zone := zone_at "77001" 0 0 12.5; nearest_station := Some "S1_1";
       distance_km := 0; zone_precinct := Some 1%Z |};
    {| zone := zone_at "77002" 9000 300 7.25; nearest_station := Some "S1_2";
       distance_km := 0; zone_precinct := Some 1%Z |} ].

End Sample.

(** * The rest of [scripts/modeling.py] *)

(** An infinity of either sign, or NaN: what [int()] refuses. *)
Definition inf_or_nan (x : float) : bool :=
  match Prim2SF x with
  | S754_infinity _ | S754_nan => true
  | _ => false
  end.

(** A float other than [-0.0]. *)
Definition not_neg_zero (x : float) : Prop := Prim2SF x ≠ S754_zero true.

(** The character [_]. *)
Definition underscore : Ascii.ascii :=
  Ascii.Ascii true true true true true false true false.

(** The character [c] occurs in [s]. *)
Fixpoint has_char (c : Ascii.ascii) (s : string) : bool :=
  match s with
  | EmptyString => false
  | String c' s' => if decide (c = c') then true else has_char c s'
  end.

(** scikit-learn's [fit_predict]: one label per sample, each the index of a
    cluster center. *)
Definition labels_contract `{Sklearn} : Prop :=
  ∀ k coords centers clusters,
    kmeans_fit k coords = Some (centers, clusters) →
    length clusters = length coords
    ∧ Forall (λ label, label < length centers) clusters.

Section calculate_areas.
Context {geometry : Type}.

(** [gdf.to_crs(epsg=3857).geometry.area] of one polygon, in square
    metres. *)
Variable area_3857 : geometry → float.

(** An entry of [data_dict]: a [GeoDataFrame], of which the geometry column
    and the [area_sq_km] column (when it is there) matter here, or something
    else, as the EDA summary that [load_datasets] adds. *)
Inductive dataset :=
  | GeoDataFrame (geometries : list geometry) (area_column : option (list float))
  | NotAFrame.

(** Lines 73-80, for one entry. *)
Definition add_area_column (gdf : dataset) : dataset :=
  match gdf with
  | GeoDataFrame geometries None =>
      GeoDataFrame geometries
        (Some ((λ g, (area_3857 g / F64.of_Z (10 ^ 6))%float) <$> geometries))
  | _ => gdf
  end.

(** Lines 69-82. *)
Definition calculate_areas (data_dict : gmap string dataset)
    : gmap string dataset :=
  add_area_column <$> data_dict.

End calculate_areas.
Global Arguments GeoDataFrame {_} _ _.
Global Arguments NotAFrame {_}.


(** * Facts about binary64 comparison and special values *)

Module F64_facts.

Import F64.
Local Open Scope float_scope.

Lemma SFcompare_lt_trans x y z :
  SFcompare x y = Some Lt → SFcompare y z = Some Lt → SFcompare x z = Some Lt.
Proof.
  destruct x as [sx|sx| |sx mx ex], y as [sy|sy| |sy my ey],
           z as [sz|sz| |sz mz ez];
    simpl; try congruence;
    try (destruct sx, sy, sz; simpl; congruence).
  change (PosDef.Pos.compare_cont Eq) with Pos.compare.
  destruct sx, sy, sz; simpl; try congruence;
    destruct (Z.compare_spec ex ey), (Z.compare_spec ey ez),
             (Z.compare_spec ex ez);
    try congruence; try lia; subst;
    destruct (Pos.compare_spec mx my), (Pos.compare_spec my mz),
             (Pos.compare_spec mx mz);
    simpl; try congruence; try lia.
Qed.

Lemma SFcompare_lt_ge x y z :
  y ≠ S754_nan →
  SFcompare x z = Some Lt → SFltb y z = false → SFcompare x y = Some Lt.
Proof.
  unfold SFltb.
  destruct x as [sx|sx| |sx mx ex], y as [sy|sy| |sy my ey],
           z as [sz|sz| |sz mz ez];
    simpl; try congruence;
    try (destruct sx, sy, sz; simpl; congruence).
  change (PosDef.Pos.compare_cont Eq) with Pos.compare.
  destruct sx, sy, sz; simpl; try congruence;
    destruct (Z.compare_spec ex ey), (Z.compare_spec ey ez),
             (Z.compare_spec ex ez);
    try congruence; try lia; subst;
    destruct (Pos.compare_spec mx my), (Pos.compare_spec my mz),
             (Pos.compare_spec mx mz);
    simpl; try congruence; try lia.
Qed.

Lemma SFcompare_refl x : x ≠ S754_nan → SFcompare x x = Some Eq.
Proof.
  destruct x as [s|s| |s m e]; simpl; try congruence; intros _.
  - by destruct s.
  - change (PosDef.Pos.compare_cont Eq) with Pos.compare.
    rewrite Z.compare_refl, Pos.compare_refl. by destruct s.
Qed.

(** [<] on floats is irreflexive and transitive, NaN included. *)
Lemma ltb_irrefl x : (x <? x) = false.
Proof.
  rewrite ltb_spec. unfold SFltb.
  destruct (Prim2SF x) eqn:E; try done; by rewrite SFcompare_refl.
Qed.

Lemma ltb_trans x y z : (x <? y) = true → (y <? z) = true → (x <? z) = true.
Proof.
  rewrite !ltb_spec. unfold SFltb. intros Hxy Hyz.
  rewrite (SFcompare_lt_trans (Prim2SF x) (Prim2SF y) (Prim2SF z)); [done|..].
  - by destruct (SFcompare (Prim2SF x) (Prim2SF y)) as [[]|].
  - by destruct (SFcompare (Prim2SF y) (Prim2SF z)) as [[]|].
Qed.

(** [x < z] and [not (y < z)] give [x < y] when [y] is a number. *)
Lemma ltb_lt_ge x y z :
  finite y = true → (x <? z) = true → (y <? z) = false → (x <? y) = true.
Proof.
  unfold finite. rewrite !ltb_spec. intros Hy Hxz Hyz.
  unfold SFltb at 1.
  rewrite (SFcompare_lt_ge (Prim2SF x) (Prim2SF y) (Prim2SF z)); [done|..].
  - intros E. by rewrite E in Hy.
  - unfold SFltb in Hxz.
    by destruct (SFcompare (Prim2SF x) (Prim2SF z)) as [[]|].
  - done.
Qed.

Lemma ltb_infinity x : finite x = true → (x <? infinity) = true.
Proof.
  unfold finite. rewrite ltb_spec.
  by destruct (Prim2SF x) as [s|s| |s m e].
Qed.

Lemma leb_infinity x : is_nan x = false → (x <=? infinity) = true.
Proof.
  unfold is_nan. rewrite FloatAxioms.eqb_spec, leb_spec. unfold SFeqb, SFleb.
  destruct (Prim2SF x) as [s|s| |s m e]; try done. by destruct s.
Qed.

Lemma is_nan_spec x : is_nan x = true ↔ Prim2SF x = S754_nan.
Proof.
  unfold is_nan. rewrite FloatAxioms.eqb_spec. unfold SFeqb.
  destruct (Prim2SF x) as [s|s| |s m e] eqn:E; try done;
    rewrite SFcompare_refl; done.
Qed.

(** Zeros and NaN are closed under the operations of the Gini formula. *)
Lemma zero_or_nan_mul x y : zero_or_nan y = true → zero_or_nan (x * y) = true.
Proof.
  unfold zero_or_nan. rewrite mul_spec.
  by destruct (Prim2SF x) as [s|s| |s m e],
              (Prim2SF y) as [s'|s'| |s' m' e'].
Qed.

Lemma zero_or_nan_add x y :
  zero_or_nan x = true → zero_or_nan y = true → zero_or_nan (x + y) = true.
Proof.
  unfold zero_or_nan. rewrite add_spec.
  destruct (Prim2SF x) as [s|s| |s m e],
           (Prim2SF y) as [s'|s'| |s' m' e']; try done.
  by destruct s, s'.
Qed.

Lemma zero_or_nan_div x y :
  zero_or_nan x = true → zero_or_nan y = true → is_nan (x / y) = true.
Proof.
  unfold zero_or_nan. intros Hx Hy. apply is_nan_spec. rewrite div_spec.
  by destruct (Prim2SF x) as [s|s| |s m e],
              (Prim2SF y) as [s'|s'| |s' m' e'].
Qed.

(** The quotient of a finite non-zero float by itself is exactly 1. *)
Lemma SFdiv_self s m e :
  SF64div (S754_finite s m e) (S754_finite s m e) = Prim2SF 1.
Proof.
  unfold SF64div, SFdiv, SFdiv_core_binary.
  replace (Zdigits2 (Z.pos m) + e - (Zdigits2 (Z.pos m) + e))%Z
    with 0%Z by lia.
  replace (e - e)%Z with 0%Z by lia.
  change (Z.min (fexp prec emax 0) 0) with (-53)%Z.
  change (0 - -53)%Z with 53%Z.
  cbv iota beta.
  rewrite Z.shiftl_mul_pow2 by lia.
  change IntDef.Z.div_eucl with Z.div_eucl.
  assert (Hdiv : Z.div_eucl (Z.pos m * 2 ^ 53) (Z.pos m) = (2 ^ 53, 0)%Z).
  { pose proof (Z.div_mul (2 ^ 53) (Z.pos m)) as Hq.
    pose proof (Z.mod_mul (2 ^ 53) (Z.pos m)) as Hr.
    rewrite (Z.mul_comm (2 ^ 53)) in Hq, Hr.
    unfold Z.div, Z.modulo in Hq, Hr.
    destruct (Z.div_eucl (Z.pos m * 2 ^ 53) (Z.pos m)) as [q r].
    rewrite Hq, Hr by lia. done. }
  rewrite Hdiv.
  assert (Hloc : new_location (Z.pos m) 0 = loc_Exact).
  { unfold new_location. by destruct (Z.even (Z.pos m)). }
  rewrite Hloc. by destruct s.
Qed.

Lemma div_self x : finite_nonzero x = true → x / x = 1.
Proof.
  unfold finite_nonzero. intros H.
  rewrite <-(SF2Prim_Prim2SF (x / x)), div_spec.
  destruct (Prim2SF x) as [s|s| |s m e]; try done.
  by rewrite SFdiv_self, SF2Prim_Prim2SF.
Qed.

End F64_facts.

(** * Stage 4: the equity metrics *)

Section equity_facts.
Context {geometry : Type} `{!Pandas float}.
Implicit Types zipcodes : list (ServedZone geometry float).

Import F64 F64_facts.
Local Open Scope float_scope.

Lemma np_sum_zero_or_nan_from acc (a : list float) :
  zero_or_nan acc = true →
  Forall (λ x, zero_or_nan x = true) a →
  zero_or_nan (foldl PrimFloat.add acc a) = true.
Proof.
  intros Hacc Ha. revert acc Hacc.
  induction Ha as [|x a Hx _ IH]; intros acc Hacc; simpl; [done|].
  apply IH. by apply zero_or_nan_add.
Qed.

Lemma np_sum_zero_or_nan (a : list float) :
  Forall (λ x, zero_or_nan x = true) a → zero_or_nan (np_sum a) = true.
Proof. by apply np_sum_zero_or_nan_from. Qed.

Lemma filter_zeros (a : list float) :
  Forall (λ d, d = 0 ∨ PrimFloat.is_nan d = true) a →
  Forall (λ d, d = 0) (filter (λ d, PrimFloat.is_nan d = false) a).
Proof.
  induction 1 as [|d a [->|Hd] _ IH]; [constructor|..].
  - rewrite filter_cons_True by done. by constructor.
  - rewrite filter_cons_False; [done|]. by rewrite Hd.
Qed.

Lemma np_sort_zeros (a : list float) : Forall (λ d, d = 0) a → np_sort a = a.
Proof.
  induction 1 as [|d a -> Ha IH]; [done|].
  unfold np_sort in *. simpl. rewrite IH.
  destruct Ha as [|d' a' -> _]; done.
Qed.

Lemma weighted_zeros (weights : list Z) (a : list float) :
  Forall (λ d, d = 0) a →
  Forall (λ x, zero_or_nan x = true)
         (zip_with (λ w d, F64.of_Z w * d) weights a).
Proof.
  intros Ha. revert weights.
  induction Ha as [|d a -> _ IH]; intros [|w weights]; simpl;
    try constructor; [by apply zero_or_nan_mul | apply IH].
Qed.

(** The Gini-like coefficient of a column that holds nothing but zeros and
    missing values, the empty column included, is NaN. *)
Lemma gini_of_zeros (a : list float) :
  Forall (λ d, d = 0 ∨ PrimFloat.is_nan d = true) a →
  PrimFloat.is_nan (gini_of a) = true.
Proof.
  intros Ha. apply filter_zeros in Ha. unfold gini_of.
  rewrite (np_sort_zeros _ Ha).
  apply zero_or_nan_div.
  - apply np_sum_zero_or_nan. by apply weighted_zeros.
  - apply zero_or_nan_mul, np_sum_zero_or_nan.
    eapply Forall_impl; [exact Ha|]. by intros d ->.
Qed.

Lemma select_rows_filter {T : Type} (f : T → bool) (rows : list T) :
  select_rows rows (f <$> rows) = filter (λ r, f r = true) rows.
Proof.
  unfold select_rows. induction rows as [|r rows IH]; [done|].
  csimpl. rewrite IH. destruct (f r) eqn:E.
  - by rewrite filter_cons_True.
  - rewrite filter_cons_False; [done|]. by rewrite E.
Qed.

Lemma of_Z_threshold : F64.of_Z threshold_distance = 10.
Proof. vm_compute. reflexivity. Qed.

Lemma coverage_ratio_at_spec threshold zipcodes :
  coverage_ratio_at threshold zipcodes = spec_coverage_ratio threshold zipcodes.
Proof.
  unfold coverage_ratio_at, spec_coverage_ratio.
  by rewrite (select_rows_filter (λ z, distance_km z <=? threshold)).
Qed.

(** C6 (as amended): for every arrangement of the distances 1, 2, 3, 4 and
    10 km the Gini-like coefficient is the float 0.4, which is
    [40 / 100]: the weighted sum is -4 - 4 + 0 + 8 + 40 = 40 and
    [n * sum] is 5 * 20. *)
Theorem gini_regression_value (distance_km : list float) :
  distance_km ≡ₚ [1; 2; 3; 4; 10] → gini_of distance_km = 0.4.
Proof.
  intros Hperm. symmetry in Hperm.
  apply permutations_Permutation in Hperm. revert distance_km Hperm.
  apply Forall_forall, (bool_decide_unpack _). vm_compute. reflexivity.
Qed.

Lemma gini_regression_value_witness :
  gini_of [10; 3; 1; 4; 2] = 0.4.
Proof.
  apply (gini_regression_value [10; 3; 1; 4; 2]).
  apply (bool_decide_unpack _). vm_compute. reflexivity.
Defined.

(** C6, as the specification states it, fails: the coefficient of
    [1, 2, 3, 4, 10] is not 0.36 to two decimals. *)
Lemma gini_regression_not_036 :
  approx2 0.36 (gini_of [1; 2; 3; 4; 10]) = false
  ∧ gini_of [1; 2; 3; 4; 10] = 0.4.
Proof. split; vm_compute; reflexivity. Qed.

(** C7 (as amended): when the zip codes are none, or every distance is 0
    (or missing), the quotient is [0.0 / 0.0] and the Gini-like coefficient
    that is returned is NaN. *)
Theorem gini_degenerate_is_nan zipcodes :
  Forall (λ z, distance_km z = 0 ∨ PrimFloat.is_nan (distance_km z) = true)
         zipcodes →
  PrimFloat.is_nan (gini_coefficient (calculate_equity_metrics zipcodes))
    = true.
Proof.
  intros Hz. simpl. apply gini_of_zeros.
  induction Hz as [|z zs Hd _ IH]; constructor; done.
Qed.

(** C8: the coverage ratio that is returned is the area of the zip codes
    whose [distance_km] is at most the threshold over the area of all zip
    codes, the threshold being 10 km; and with a threshold of infinity,
    when no distance is missing and the total area is a non-zero number,
    the ratio is exactly 1. *)
Theorem coverage_ratio_is_area_share zipcodes :
  coverage_ratio (calculate_equity_metrics zipcodes)
    = spec_coverage_ratio 10 zipcodes
  ∧ threshold_distance_km (calculate_equity_metrics zipcodes) = 10%Z
  ∧ (Forall (λ z, PrimFloat.is_nan (distance_km z) = false) zipcodes →
     finite_nonzero (series_sum ((area_sq_km ∘ zone) <$> zipcodes)) = true →
     coverage_ratio_at infinity zipcodes = 1).
Proof.
  split; [|split].
  - simpl. by rewrite of_Z_threshold, coverage_ratio_at_spec.
  - done.
  - intros Hd Harea. rewrite coverage_ratio_at_spec.
    unfold spec_coverage_ratio.
    assert (Hall : filter (λ z, (distance_km z <=? infinity) = true) zipcodes
                   = zipcodes).
    { clear Harea. induction Hd as [|z zs Hz _ IH]; [done|].
      rewrite filter_cons_True by (by apply leb_infinity). by rewrite IH. }
    rewrite Hall. by apply div_self.
Qed.
End equity_facts.

Lemma gini_degenerate_is_nan_witness :
  PrimFloat.is_nan
    (gini_coefficient (calculate_equity_metrics Sample.zero_distance_zipcodes))
  = true.
Proof.
  apply (gini_degenerate_is_nan Sample.zero_distance_zipcodes).
  apply (bool_decide_unpack _). vm_compute. reflexivity.
Defined.

(** C7, as the specification states it, fails: without zip codes, and with
    zip codes that are all at distance 0, the coefficient returned is NaN
    and not the float 0.0. *)
Lemma gini_degenerate_not_zero :
  let none : list (ServedZone Sample.Triangle float) := [] in
  PrimFloat.is_nan (gini_coefficient (calculate_equity_metrics none)) = true
  ∧ gini_coefficient (calculate_equity_metrics none) ≠ 0%float
  ∧ gini_coefficient (calculate_equity_metrics Sample.zero_distance_zipcodes)
    ≠ 0%float.
Proof.
  intros none. split; [|split].
  - vm_compute. reflexivity.
  - apply (bool_decide_unpack _). vm_compute. reflexivity.
  - apply (bool_decide_unpack _). vm_compute. reflexivity.
Qed.

Lemma coverage_ratio_is_area_share_witness :
  coverage_ratio (calculate_equity_metrics Sample.served_zipcodes)
    = spec_coverage_ratio 10 Sample.served_zipcodes
  ∧ coverage_ratio_at infinity Sample.served_zipcodes = 1%float.
Proof.
  pose proof (coverage_ratio_is_area_share Sample.served_zipcodes)
    as (Hratio & _ & Hinf).
  split; [exact Hratio|]. apply Hinf.
  - apply (bool_decide_unpack _). vm_compute. reflexivity.
  - vm_compute. reflexivity.
Defined.

(** * Stage 3: nearest-station assignment *)

Section assignment_facts.
Context {geometry A : Type} `{Shapely geometry} `{Dtype A}.
Context `{!Pandas A} `{!Pandas float}.
Implicit Types (zipcode : Zone geometry A) (station : Station).
Implicit Types (patrol_stations : list Station).
Implicit Types (zipcodes : list (Zone geometry A)).

Import F64 F64_facts.
Local Open Scope float_scope.

Lemma scan_invariant_step zipcode seen acc station :
  Forall (λ s, finite (station_distance zipcode s) = true) (seen ++ [station]) →
  scan_invariant zipcode seen acc →
  scan_invariant zipcode (seen ++ [station]) (scan_step zipcode acc station).
Proof.
  intros Hfin (Hmin & Hacc). destruct acc as [min_dist nearest]. simpl in *.
  apply Forall_app in Hfin as [Hseen Hnew].
  rewrite Forall_singleton in Hnew.
  destruct (station_distance zipcode station <? min_dist) eqn:Hlt.
  - split; simpl.
    + apply Forall_app. split.
      * eapply Forall_impl; [exact Hmin|]. intros s Hs. simpl in Hs.
        destruct (station_distance zipcode s <? station_distance zipcode station)
          eqn:E; [|done].
        pose proof (ltb_trans _ _ _ E Hlt). congruence.
      * apply Forall_singleton, ltb_irrefl.
    + right. exists (length seen), station. split; [|split; [done|]].
      * by rewrite lookup_app_r, Nat.sub_diag.
      * intros j s' Hj Hs'. rewrite lookup_app_l in Hs' by done.
        apply (ltb_lt_ge _ _ min_dist); [|done|].
        -- eapply Forall_forall in Hseen; [exact Hseen|].
           by eapply list_elem_of_lookup_2.
        -- eapply Forall_forall in Hmin; [exact Hmin|].
           by eapply list_elem_of_lookup_2.
  - split; simpl.
    + apply Forall_app. split; [done|]. by apply Forall_singleton.
    + destruct Hacc as [[-> [= -> ->]]|(k & s & Hk & [= -> ->] & Hfirst)].
      * by rewrite ltb_infinity in Hlt.
      * right. exists k, s. split; [|split; [done|]].
        -- by apply lookup_app_l_Some.
        -- intros j s' Hj Hs'. apply (Hfirst j s' Hj).
           apply lookup_lt_Some in Hk.
           by rewrite lookup_app_l in Hs' by lia.
Qed.

Lemma nearest_scan_invariant zipcode patrol_stations :
  Forall (λ s, finite (station_distance zipcode s) = true) patrol_stations →
  scan_invariant zipcode patrol_stations (nearest_scan zipcode patrol_stations).
Proof.
  unfold nearest_scan.
  induction patrol_stations as [|station seen IH] using rev_ind; intros Hfin.
  - split; [constructor|]. by left.
  - rewrite foldl_snoc. apply scan_invariant_step; [done|].
    apply IH. by apply Forall_app in Hfin as [? _].
Qed.

(** The dictionaries after the outer loop: the entry of a ZIP is the one
    written for the last zip code that carries it. *)
Lemma assign_zipcodes_lookup patrol_stations zipcodes zipcode :
  zipcode ∈ zipcodes →
  ∃ last, last ∈ zipcodes ∧ ZIP last = ZIP zipcode
    ∧ (assign_zipcodes patrol_stations zipcodes).1 !! ZIP zipcode
      = Some ((nearest_scan last patrol_stations).1 / 1000)
    ∧ (assign_zipcodes patrol_stations zipcodes).2 !! ZIP zipcode
      = Some (nearest_scan last patrol_stations).2.
Proof.
  unfold assign_zipcodes.
  induction zipcodes as [|z zs IH] using rev_ind; intros Hin.
  - by apply elem_of_nil in Hin.
  - rewrite foldl_snoc.
    destruct (foldl _ _ zs) as [distances assignments].
    unfold assign_step.
    destruct (nearest_scan z patrol_stations) as [min_dist nearest] eqn:Hscan.
    simpl in *. destruct (decide (ZIP z = ZIP zipcode)) as [Heq|Hne].
    + exists z. rewrite <-Heq, Hscan. simpl. rewrite !lookup_insert_eq.
      split; [|done]. apply elem_of_app. right. by apply list_elem_of_singleton.
    + apply elem_of_app in Hin as [Hin|Hin];
        [|apply list_elem_of_singleton in Hin; by subst].
      destruct (IH Hin) as (last & Hlast & HZIP & Hd & Ha).
      exists last. simpl. rewrite !lookup_insert_ne by done.
      split; [|done]. apply elem_of_app. by left.
Qed.

Lemma NoDup_ZIP_inj zipcodes z1 z2 :
  NoDup (ZIP <$> zipcodes) → z1 ∈ zipcodes → z2 ∈ zipcodes →
  ZIP z1 = ZIP z2 → z1 = z2.
Proof.
  intros Hnd H1 H2 Heq.
  apply list_elem_of_lookup in H1 as [i Hi], H2 as [j Hj].
  assert (i = j) as ->; [|congruence].
  eapply NoDup_lookup; [exact Hnd|..]; rewrite list_lookup_fmap.
  - by rewrite Hi.
  - by rewrite Hj, Heq.
Qed.

Lemma add_service_columns_lookup patrol_stations zipcodes i zipcode :
  zipcodes !! i = Some zipcode →
  ∃ last, last ∈ zipcodes ∧ ZIP last = ZIP zipcode
    ∧ add_service_columns patrol_stations zipcodes !! i
      = Some {| zone := zipcode;
                nearest_station := (nearest_scan last patrol_stations).2;
                distance_km := (nearest_scan last patrol_stations).1 / 1000;
                zone_precinct :=
                  (nearest_scan last patrol_stations).2
                    ≫= (build_station_precincts patrol_stations !!.) |}.
Proof.
  intros Hi.
  destruct (assign_zipcodes_lookup patrol_stations zipcodes zipcode)
    as (last & Hlast & HZIP & Hd & Ha); [by eapply list_elem_of_lookup_2|].
  exists last. split; [done|]. split; [done|].
  unfold add_service_columns.
  destruct (assign_zipcodes patrol_stations zipcodes) as [distances assignments].
  simpl in *. rewrite list_lookup_fmap, Hi. simpl. by rewrite Hd, Ha.
Qed.

Lemma add_service_columns_zone patrol_stations zipcodes :
  zone <$> add_service_columns patrol_stations zipcodes = zipcodes.
Proof.
  unfold add_service_columns.
  destruct (assign_zipcodes patrol_stations zipcodes) as [distances assignments].
  rewrite <-list_fmap_compose. by rewrite <-(list_fmap_id zipcodes) at 2.
Qed.

Lemma nearest_scan_nonempty zipcode patrol_stations :
  patrol_stations ≠ [] →
  Forall (λ s, finite (station_distance zipcode s) = true) patrol_stations →
  ∃ k s, patrol_stations !! k = Some s
    ∧ nearest_scan zipcode patrol_stations
      = (station_distance zipcode s, Some (station_id s))
    ∧ Forall (λ s', (station_distance zipcode s' <? station_distance zipcode s)
                    = false) patrol_stations
    ∧ ∀ j s', (j < k)%nat → patrol_stations !! j = Some s' →
        (station_distance zipcode s <? station_distance zipcode s') = true.
Proof.
  intros Hne Hfin.
  destruct (nearest_scan_invariant zipcode patrol_stations Hfin)
    as (Hmin & [[-> _]|(k & s & Hk & Hacc & Hfirst)]); [done|].
  exists k, s. rewrite Hacc in Hmin. by rewrite Hacc.
Qed.

(** C1: with at least one station, zip codes with distinct ZIPs and finite
    distances, every zip code gets one station recorded; that station is at
    a distance (the one compared by the scan, in metres; the recorded
    [distance_km] is that distance over 1000) that no station beats, and
    every station enumerated before it is strictly farther, so that among
    equidistant nearest stations the first one is recorded. *)
Theorem nearest_station_is_first_minimum patrol_stations zipcodes i zipcode :
  patrol_stations ≠ [] →
  NoDup (ZIP <$> zipcodes) →
  finite_distances patrol_stations zipcodes →
  zipcodes !! i = Some zipcode →
  ∃ served k station,
    (analyze_service_coverage patrol_stations zipcodes).2 !! i = Some served
    ∧ zone served = zipcode
    ∧ patrol_stations !! k = Some station
    ∧ nearest_station served = Some (station_id station)
    ∧ distance_km served = station_distance zipcode station / 1000
    ∧ (∀ s', s' ∈ patrol_stations →
        (station_distance zipcode s' <? station_distance zipcode station)
        = false)
    ∧ (∀ j s', (j < k)%nat → patrol_stations !! j = Some s' →
        (station_distance zipcode station <? station_distance zipcode s')
        = true).
Proof.
  intros Hne Hnd Hfin Hi.
  destruct (add_service_columns_lookup patrol_stations zipcodes i zipcode Hi)
    as (last & Hlast & HZIP & Hserved).
  assert (last = zipcode) as ->.
  { eapply NoDup_ZIP_inj; eauto. by eapply list_elem_of_lookup_2. }
  destruct (nearest_scan_nonempty zipcode patrol_stations Hne)
    as (k & s & Hk & Hscan & Hmin & Hfirst).
  { eapply Forall_forall in Hfin; [exact Hfin|done]. }
  rewrite Hscan in Hserved. simpl in Hserved.
  eexists _, k, s. split; [exact Hserved|]. simpl.
  repeat split; try done. intros s' Hs'.
  eapply Forall_forall in Hmin; [exact Hmin|done].
Qed.

(** C10: without any station the analysis returns (nothing in the embedded
    lines can raise): no station row, and every zip code with no nearest
    station, an infinite distance and no precinct. *)
Theorem no_station_leaves_zipcodes_unassigned zipcodes :
  analyze_service_coverage [] zipcodes
  = ([], (λ zipcode, {| zone := zipcode; nearest_station := None;
                        distance_km := infinity; zone_precinct := None |})
           <$> zipcodes).
Proof.
  unfold analyze_service_coverage. simpl. f_equal.
  apply list_eq. intros i. rewrite list_lookup_fmap.
  destruct (zipcodes !! i) as [zipcode|] eqn:Hi; simpl.
  - destruct (add_service_columns_lookup [] zipcodes i zipcode Hi)
      as (last & _ & _ & ->).
    simpl. reflexivity.
  - apply lookup_ge_None. apply lookup_ge_None in Hi.
    by rewrite <-(add_service_columns_zone [] zipcodes), length_fmap in Hi.
Qed.
End assignment_facts.

Lemma nearest_station_is_first_minimum_witness :
  let zipcode := Sample.zone_at "77001" 0 0 12.5%float in
  ∃ served k station,
    (analyze_service_coverage Sample.patrol_stations Sample.zipcodes).2 !! 0%nat
      = Some served
    ∧ zone served = zipcode
    ∧ Sample.patrol_stations !! k = Some station
    ∧ nearest_station served = Some (station_id station)
    ∧ distance_km served = (station_distance zipcode station / 1000)%float
    ∧ (∀ s', s' ∈ Sample.patrol_stations →
        (station_distance zipcode s' <? station_distance zipcode station)%float
        = false)
    ∧ (∀ j s', (j < k)%nat → Sample.patrol_stations !! j = Some s' →
        (station_distance zipcode station <? station_distance zipcode s')%float
        = true).
Proof.
  apply (nearest_station_is_first_minimum Sample.patrol_stations
           Sample.zipcodes 0).
  - done.
  - apply (bool_decide_unpack _). vm_compute. reflexivity.
  - unfold finite_distances. apply (bool_decide_unpack _).
    vm_compute. reflexivity.
  - reflexivity.
Defined.

(** Two zip codes that share a ZIP share the dictionary entry: both get what
    was computed for the later one. *)
Example duplicate_zip_shares_entry :
  let zipcodes := [ Sample.zone_at "77001" 0 0 12.5%float;
                    Sample.zone_at "77001" 9000 300 7.25%float ] in
  nearest_station
    <$> (analyze_service_coverage Sample.patrol_stations zipcodes).2
  = [Some "S1_1"; Some "S1_1"].
Proof. vm_compute. reflexivity. Qed.

(** On the sample, the first of the two equidistant nearest stations is the
    one recorded. *)
Example sample_tie_goes_to_first :
  nearest_station <$> Sample.served_zipcodes
  = [Some "S1_2"; Some "S1_1"; Some "S2_2"].
Proof. vm_compute. reflexivity. Qed.

(** * Stage 3: service areas *)

(** On whole numbers the sum from left to right is the plain sum. *)
Lemma sum_left_to_right_int64 (a : list Z) :
  sum_left_to_right a = foldr Z.add 0%Z a.
Proof.
  unfold sum_left_to_right. simpl.
  assert (Hfrom : ∀ acc : Z,
    foldl (λ acc x, acc + x)%Z acc a = (acc + foldr Z.add 0 a)%Z).
  { induction a as [|x a IH]; intros acc; simpl; [lia|]. rewrite IH. lia. }
  by rewrite Hfrom.
Qed.

#[global] Instance int64_exact : Exact Z.
Proof.
  split; simpl; intros; try lia; try done; apply sum_left_to_right_int64.
Qed.

Section service_area_facts.
Context {geometry A : Type} `{Shapely geometry} `{Exact A} `{!Pandas float}.
Implicit Types (patrol_stations : list Station).
Implicit Types (zipcodes : list (Zone geometry A)).
Implicit Types (served : list (ServedZone geometry A)).

Import F64 F64_facts.

(** With exact addition [Series.sum] is a plain sum. *)
Lemma series_sum_cons (x : A) (a : list A) :
  series_sum (x :: a) = dadd x (series_sum a).
Proof. by rewrite !series_sum_exact. Qed.

(** The group of a key holds the rows assigned to that key, in order. *)
Lemma groupby_nearest_station_lookup served key :
  default [] (groupby_nearest_station served !! key)
  = filter (λ z, nearest_station z = Some key) served.
Proof.
  unfold groupby_nearest_station.
  induction served as [|z zs IH] using rev_ind; [done|].
  rewrite foldl_snoc, filter_app.
  destruct (nearest_station z) as [k|] eqn:Hk.
  - destruct (decide (k = key)) as [->|Hne].
    + rewrite lookup_insert_eq. simpl. rewrite IH.
      by rewrite (filter_cons_True _ z []).
    + rewrite lookup_insert_ne by done. rewrite IH.
      rewrite (filter_cons_False _ z []) by congruence.
      by rewrite filter_nil, app_nil_r.
  - rewrite IH, (filter_cons_False _ z []) by congruence.
    by rewrite filter_nil, app_nil_r.
Qed.

(** A group is never empty: a key enters the table with its first row. *)
Lemma groupby_nearest_station_nonempty served key rows :
  groupby_nearest_station served !! key = Some rows → rows ≠ [].
Proof.
  unfold groupby_nearest_station. revert rows.
  induction served as [|z zs IH] using rev_ind; intros rows; [done|].
  rewrite foldl_snoc.
  destruct (nearest_station z) as [k|]; [|apply IH].
  destruct (decide (k = key)) as [->|Hne].
  - rewrite lookup_insert_eq. intros [= <-] [_ [=]]%app_nil.
  - rewrite lookup_insert_ne by done. apply IH.
Qed.

(** The service area of a station is the summed area of the zip codes
    assigned to its id. *)
Lemma merge_service_area_sum served station :
  service_area_sq_km
    (merge_service_area (groupby_nearest_station served) station)
  = series_sum ((area_sq_km ∘ zone)
      <$> filter (λ z, nearest_station z = Some (station_id station)) served).
Proof.
  rewrite <-groupby_nearest_station_lookup. unfold merge_service_area.
  destruct (groupby_nearest_station served !! station_id station); simpl.
  - unfold fillna0. by rewrite isna_never, groupby_sum_exact, series_sum_exact.
  - by rewrite series_sum_nil.
Qed.

(** A zip code that goes to no listed id changes no service area. *)
Lemma service_areas_skip patrol_stations served z :
  (∀ s, s ∈ patrol_stations → nearest_station z ≠ Some (station_id s)) →
  (λ s, series_sum ((area_sq_km ∘ zone)
          <$> filter (λ z, nearest_station z = Some (station_id s)) (z :: served)))
    <$> patrol_stations
  = (λ s, series_sum ((area_sq_km ∘ zone)
          <$> filter (λ z, nearest_station z = Some (station_id s)) served))
    <$> patrol_stations.
Proof.
  intros Hz. apply list_fmap_ext. intros i s Hs.
  rewrite filter_cons_False; [done|].
  apply Hz. by eapply list_elem_of_lookup_2.
Qed.

(** A zip code that goes to the id of a listed station adds its area to the
    total of the service areas. *)
Lemma service_areas_add patrol_stations served z station :
  NoDup (station_id <$> patrol_stations) →
  station ∈ patrol_stations →
  nearest_station z = Some (station_id station) →
  series_sum ((λ s, series_sum ((area_sq_km ∘ zone)
      <$> filter (λ z, nearest_station z = Some (station_id s)) (z :: served)))
    <$> patrol_stations)
  = dadd (area_sq_km (zone z))
      (series_sum ((λ s, series_sum ((area_sq_km ∘ zone)
          <$> filter (λ z, nearest_station z = Some (station_id s)) served))
        <$> patrol_stations)).
Proof.
  intros Hnd Hin Hz.
  induction patrol_stations as [|s ss IH]; [by apply elem_of_nil in Hin|].
  rewrite !fmap_cons, !series_sum_cons.
  apply NoDup_cons in Hnd as [Hs Hnd].
  destruct (decide (station_id s = station_id station)) as [Heq|Hne].
  - rewrite filter_cons_True by congruence.
    rewrite fmap_cons, series_sum_cons. simpl.
    rewrite service_areas_skip; [by rewrite dadd_assoc|].
    intros s' Hs' E. apply Hs. apply list_elem_of_fmap.
    exists s'. split; [congruence|done].
  - rewrite filter_cons_False by congruence.
    apply elem_of_cons in Hin as [->|Hin]; [done|].
    rewrite (IH Hnd Hin).
    by rewrite !dadd_assoc, (dadd_comm _ (area_sq_km (zone z))).
Qed.

Lemma service_areas_total patrol_stations served :
  NoDup (station_id <$> patrol_stations) →
  Forall (λ z, ∃ s, s ∈ patrol_stations
                 ∧ nearest_station z = Some (station_id s)) served →
  series_sum ((λ s, series_sum ((area_sq_km ∘ zone)
      <$> filter (λ z, nearest_station z = Some (station_id s)) served))
    <$> patrol_stations)
  = series_sum ((area_sq_km ∘ zone) <$> served).
Proof.
  intros Hnd Hall. induction Hall as [|z zs (s & Hs & Hz) _ IH].
  - induction patrol_stations as [|s ss IH]; [done|].
    rewrite fmap_cons, series_sum_cons, IH; [|by apply NoDup_cons in Hnd as [_ ?]].
    rewrite filter_nil. simpl. by rewrite series_sum_nil, dadd_zero.
  - rewrite (service_areas_add _ _ _ s) by done.
    by rewrite IH, fmap_cons, series_sum_cons.
Qed.

(** With a station and finite distances every zip code is assigned to a
    listed station. *)
Lemma add_service_columns_assigned patrol_stations zipcodes :
  patrol_stations ≠ [] →
  finite_distances patrol_stations zipcodes →
  Forall (λ z, ∃ s, s ∈ patrol_stations
                 ∧ nearest_station z = Some (station_id s))
         (add_service_columns patrol_stations zipcodes).
Proof.
  intros Hne Hfin. apply Forall_lookup. intros i served Hi.
  assert (is_Some (zipcodes !! i)) as [zipcode Hz].
  { apply lookup_lt_is_Some. apply lookup_lt_Some in Hi.
    by rewrite <-(add_service_columns_zone patrol_stations zipcodes),
      length_fmap. }
  destruct (add_service_columns_lookup patrol_stations zipcodes i zipcode Hz)
    as (last & Hlast & _ & Hserved).
  rewrite Hserved in Hi. injection Hi as <-. simpl.
  destruct (nearest_scan_nonempty last patrol_stations Hne)
    as (k & s & Hk & -> & _).
  { eapply Forall_forall in Hfin; [exact Hfin|done]. }
  exists s. split; [|done]. by eapply list_elem_of_lookup_2.
Qed.

Lemma service_areas_sum_exact patrol_stations zipcodes :
  patrol_stations ≠ [] →
  NoDup (station_id <$> patrol_stations) →
  finite_distances patrol_stations zipcodes →
  series_sum (service_area_sq_km
                <$> (analyze_service_coverage patrol_stations zipcodes).1)
  = series_sum (area_sq_km <$> zipcodes).
Proof.
  intros Hne Hnd Hfin. unfold analyze_service_coverage. simpl.
  rewrite <-list_fmap_compose.
  erewrite (list_fmap_ext _ _ patrol_stations);
    [|intros i s _; apply merge_service_area_sum].
  rewrite service_areas_total;
    [|done|by apply add_service_columns_assigned].
  by rewrite list_fmap_compose, add_service_columns_zone.
Qed.
End service_area_facts.

Section service_area_partition.
Context {geometry A : Type} `{Shapely geometry} `{Dtype A}.
Context `{!Pandas A} `{!Pandas float}.
Implicit Types (patrol_stations : list Station).
Implicit Types (zipcodes : list (Zone geometry A)).
Implicit Types (served : list (ServedZone geometry A)).

(** For any column type: the service area of a station is the [fillna(0)]
    of the group-by sum of the areas of the zip codes assigned to its id,
    and 0 when no zip code is. *)
Lemma merge_service_area_group served station :
  let rows := filter (λ z, nearest_station z = Some (station_id station)) served in
  service_area_sq_km
    (merge_service_area (groupby_nearest_station served) station)
  = match rows with
    | [] => dzero
    | _ :: _ => fillna0 (groupby_sum ((area_sq_km ∘ zone) <$> rows))
    end.
Proof.
  intros rows. subst rows.
  rewrite <-groupby_nearest_station_lookup. unfold merge_service_area.
  destruct (groupby_nearest_station served !! station_id station)
    as [rows|] eqn:Hrows; simpl; [|done].
  apply groupby_nearest_station_nonempty in Hrows. by destruct rows.
Qed.

Lemma groups_add patrol_stations served z station :
  NoDup (station_id <$> patrol_stations) →
  station ∈ patrol_stations →
  nearest_station z = Some (station_id station) →
  concat ((λ s, filter (λ z, nearest_station z = Some (station_id s))
                       (z :: served)) <$> patrol_stations)
  ≡ₚ z :: concat ((λ s, filter (λ z, nearest_station z = Some (station_id s))
                               served) <$> patrol_stations).
Proof.
  intros Hnd Hin Hz.
  induction patrol_stations as [|s ss IH]; [by apply elem_of_nil in Hin|].
  rewrite fmap_cons in Hnd. apply NoDup_cons in Hnd as [Hs Hnd].
  rewrite !fmap_cons, !concat_cons.
  destruct (decide (station_id s = station_id station)) as [Heq|Hne].
  - rewrite filter_cons_True by congruence.
    rewrite <-app_comm_cons.
    rewrite (list_fmap_ext
      (λ s, filter (λ z, nearest_station z = Some (station_id s)) (z :: served))
      (λ s, filter (λ z, nearest_station z = Some (station_id s)) served) ss);
      [done|].
    intros i s' Hs'. rewrite filter_cons_False; [done|].
    intros E. apply Hs. apply list_elem_of_fmap.
    exists s'. split; [congruence|by eapply list_elem_of_lookup_2].
  - rewrite filter_cons_False by congruence.
    apply elem_of_cons in Hin as [->|Hin]; [done|].
    rewrite (IH Hnd Hin). by rewrite Permutation_middle.
Qed.

(** The groups of the stations split the zip codes. *)
Lemma groups_partition patrol_stations served :
  NoDup (station_id <$> patrol_stations) →
  Forall (λ z, ∃ s, s ∈ patrol_stations
                 ∧ nearest_station z = Some (station_id s)) served →
  concat ((λ s, filter (λ z, nearest_station z = Some (station_id s)) served)
            <$> patrol_stations)
  ≡ₚ served.
Proof.
  intros Hnd Hall. induction Hall as [|z zs (s & Hs & Hz) _ IH].
  - clear Hnd. induction patrol_stations as [|s ss IH]; [done|].
    by rewrite fmap_cons, concat_cons, filter_nil.
  - rewrite (groups_add _ _ _ s) by done. by rewrite IH.
Qed.

(** C5 (as amended): with at least one station (every zip code is then
    assigned, the distances being finite) and distinct station ids, the
    rows of the result are the zip codes; they are shared out among the
    stations, each zip code in the group of exactly one station; the service
    area of a station is the group-by sum of the areas of its own zip codes,
    and 0 when it has none; and for a column type whose addition does not
    round, the service areas of the stations sum to the area of the zip
    codes.  (With [float64] areas the two totals add the same areas in
    different orders and can differ: see the example that follows.) *)
Theorem service_areas_sum_to_zone_area patrol_stations zipcodes :
  patrol_stations ≠ [] →
  NoDup (station_id <$> patrol_stations) →
  finite_distances patrol_stations zipcodes →
  let result := analyze_service_coverage patrol_stations zipcodes in
  let assigned station :=
    filter (λ z, nearest_station z = Some (station_id station)) result.2 in
  zone <$> result.2 = zipcodes
  ∧ concat (assigned <$> patrol_stations) ≡ₚ result.2
  ∧ Forall2 (λ station row,
       service_area_sq_km row
       = match assigned station with
         | [] => dzero
         | _ :: _ =>
             fillna0 (groupby_sum ((area_sq_km ∘ zone) <$> assigned station))
         end)
     patrol_stations result.1
  ∧ (Exact A →
     series_sum (service_area_sq_km <$> result.1)
     = series_sum (area_sq_km <$> zipcodes)).
Proof.
  intros Hne Hnd Hfin result assigned. split; [|split; [|split]].
  - apply add_service_columns_zone.
  - apply groups_partition; [done|].
    by apply add_service_columns_assigned.
  - subst result assigned. unfold analyze_service_coverage. simpl.
    apply Forall2_fmap_r, Forall_Forall2_diag, Forall_forall.
    intros s _. apply merge_service_area_group.
  - intros Hexact. by apply service_areas_sum_exact.
Qed.
End service_area_partition.

Lemma service_areas_sum_to_zone_area_witness :
  let result :=
    analyze_service_coverage Sample.patrol_stations Sample.zipcodes in
  let assigned station :=
    filter (λ z, nearest_station z = Some (station_id station)) result.2 in
  let result_m2 :=
    analyze_service_coverage Sample.patrol_stations Sample.zipcodes_m2 in
  zone <$> result.2 = Sample.zipcodes
  ∧ concat (assigned <$> Sample.patrol_stations) ≡ₚ result.2
  ∧ Forall2 (λ station row,
       service_area_sq_km row
       = match assigned station with
         | [] => 0%float
         | _ :: _ =>
             fillna0 (groupby_sum ((area_sq_km ∘ zone) <$> assigned station))
         end)
     Sample.patrol_stations result.1
  ∧ series_sum (service_area_sq_km <$> result_m2.1)
    = series_sum (area_sq_km <$> Sample.zipcodes_m2).
Proof.
  intros result assigned result_m2.
  assert (Hids : NoDup (station_id <$> Sample.patrol_stations)).
  { apply (bool_decide_unpack _). vm_compute. reflexivity. }
  destruct (service_areas_sum_to_zone_area Sample.patrol_stations
              Sample.zipcodes) as (Hrows & Hsplit & Hareas & _).
  - done.
  - exact Hids.
  - unfold finite_distances. apply (bool_decide_unpack _).
    vm_compute. reflexivity.
  - destruct (service_areas_sum_to_zone_area Sample.patrol_stations
                Sample.zipcodes_m2) as (_ & _ & _ & Hsum).
    + done.
    + exact Hids.
    + unfold finite_distances. apply (bool_decide_unpack _).
      vm_compute. reflexivity.
    + split; [exact Hrows|]. split; [exact Hsplit|]. split; [exact Hareas|].
      apply Hsum, int64_exact.
Defined.

(** C5, as the specification states it, fails on [float64] areas: with the
    four stations of the sample and three zip codes of areas 0.1, 0.2 and
    0.3, the last two being nearest to the same station, every zip code is
    assigned, the service areas are 0.5, 0.1, 0 and 0, and their sum is 0.6,
    whereas the areas of the zip codes sum to 0.6000000000000001
    ([0.1 + 0.2] is rounded up before 0.3 is added). *)
Lemma service_area_total_differs_on_floats :
  let zipcodes : list (Zone Sample.Triangle float) :=
    [ Sample.zone_at "77001" 0 0 0.1%float;
      Sample.zone_at "77002" 9000 300 0.2%float;
      Sample.zone_at "77003" 9000 (-300) 0.3%float ] in
  let result := analyze_service_coverage Sample.patrol_stations zipcodes in
  Sample.patrol_stations ≠ []
  ∧ nearest_station <$> result.2 = [Some "S1_2"; Some "S1_1"; Some "S1_1"]
  ∧ service_area_sq_km <$> result.1 = [0.5; 0.1; 0; 0]%float
  ∧ series_sum (service_area_sq_km <$> result.1) = 0.6%float
  ∧ series_sum (area_sq_km <$> zipcodes) = 0.6000000000000001%float
  ∧ series_sum (service_area_sq_km <$> result.1)
    ≠ series_sum (area_sq_km <$> zipcodes).
Proof.
  intros zipcodes result. split; [done|].
  split; [vm_compute; reflexivity|]. split; [vm_compute; reflexivity|].
  split; [vm_compute; reflexivity|]. split; [vm_compute; reflexivity|].
  apply (bool_decide_unpack _). vm_compute. reflexivity.
Qed.

(** On the float areas of the sample the additions happen to be exact. *)
Example sample_service_areas :
  let result :=
    analyze_service_coverage Sample.patrol_stations Sample.zipcodes in
  service_area_sq_km <$> result.1 = [7.25; 12.5; 0; 30]%float
  ∧ series_sum (service_area_sq_km <$> result.1) = 49.75%float
  ∧ series_sum (area_sq_km <$> Sample.zipcodes) = 49.75%float.
Proof. repeat split; vm_compute; reflexivity. Qed.

(** The compensated sum of a group differs from the sum from left to
    right. *)
Example compensated_sum_of_three :
  compensated_sum [0.1; 0.2; 0.3]%float = 0.6%float
  ∧ compensated_mean [0.1; 0.2; 0.3]%float = 0.19999999999999998%float
  ∧ sum_left_to_right [0.1; 0.2; 0.3]%float = 0.6000000000000001%float.
Proof. repeat split; vm_compute; reflexivity. Qed.

(** * Stage 2: station placement *)

Lemma unique_from_spec seen values :
  NoDup (unique_from seen values)
  ∧ ∀ v, v ∈ unique_from seen values ↔ v ∈ values ∧ v ∉ seen.
Proof.
  revert seen. induction values as [|x values IH]; intros seen; simpl.
  - split; [constructor|]. intros v. rewrite elem_of_nil. tauto.
  - destruct (decide (x ∈ seen)) as [Hx|Hx].
    + destruct (IH seen) as [Hnd Hin]. split; [done|].
      intros v. rewrite Hin, elem_of_cons. split; [tauto|].
      intros [[->|?] ?]; tauto.
    + destruct (IH (x :: seen)) as [Hnd Hin]. split.
      * constructor; [|done]. rewrite Hin, elem_of_cons. tauto.
      * intros v. rewrite !elem_of_cons, Hin, elem_of_cons.
        destruct (decide (v = x)) as [->|]; tauto.
Qed.

Lemma NoDup_unique values : NoDup (unique values).
Proof. apply unique_from_spec. Qed.

Lemma elem_of_unique values v : v ∈ unique values ↔ v ∈ values.
Proof.
  unfold unique. rewrite (proj2 (unique_from_spec [] values)), elem_of_nil.
  tauto.
Qed.

Section placement_facts.
Context {geometry : Type} `{Sklearn}.
Implicit Types (patrol_points : list PatrolPoint) (precinct_nums : list Z).
Implicit Types (constable_precincts : list (Precinct geometry)).

Lemma length_make_stations precinct_num centers clusters :
  length (make_stations precinct_num centers clusters) = length centers.
Proof. unfold make_stations. by rewrite length_imap. Qed.

Lemma make_stations_lookup precinct_num centers clusters i s :
  make_stations precinct_num centers clusters !! i = Some s →
  station_precinct s = precinct_num
  ∧ station_id s
    = "S" +:+ pretty precinct_num +:+ "_" +:+ pretty (Z.of_nat i + 1)%Z.
Proof.
  unfold make_stations. rewrite list_lookup_imap.
  destruct (centers !! i); simpl; [|done]. by intros [= <-].
Qed.

Lemma make_stations_precinct precinct_num centers clusters :
  Forall (λ s, station_precinct s = precinct_num)
         (make_stations precinct_num centers clusters).
Proof.
  apply Forall_lookup. intros i s Hs.
  by apply make_stations_lookup in Hs as [? _].
Qed.

Lemma precinct_block_precinct k patrol_points precinct_num block :
  precinct_block k patrol_points precinct_num block →
  Forall (λ s, station_precinct s = precinct_num) block.
Proof.
  intros [[_ ->]|(_ & centers & clusters & _ & ->)]; [constructor|].
  apply make_stations_precinct.
Qed.

(** A run of the loop that returns has appended one block per precinct
    number. *)
Lemma optimize_loop_blocks k patrol_points precinct_nums acc stations :
  optimize_loop k patrol_points precinct_nums acc = Returns stations →
  ∃ blocks, stations = acc ++ concat blocks
    ∧ Forall2 (precinct_block k patrol_points) precinct_nums blocks.
Proof.
  revert acc. induction precinct_nums as [|num nums IH]; intros acc; simpl.
  - intros [= <-]. exists []. by rewrite app_nil_r.
  - case_bool_decide as Hlen.
    + intros Hrun. destruct (IH _ Hrun) as (blocks & -> & Hblocks).
      exists ([] :: blocks). split; [done|].
      constructor; [|done]. by left.
    + destruct (kmeans_fit k _) as [[centers clusters]|] eqn:Hfit; [|done].
      intros Hrun. destruct (IH _ Hrun) as (blocks & -> & Hblocks).
      exists (make_stations num centers clusters :: blocks).
      split; [by rewrite <-app_assoc|].
      constructor; [|done]. right. split; [lia|]. by exists centers, clusters.
Qed.

(** With scikit-learn's guarantee and at least one station per precinct
    asked for, the loop returns. *)
Lemma optimize_loop_returns k patrol_points precinct_nums acc :
  kmeans_contract → 1 ≤ k →
  ∃ stations, optimize_loop k patrol_points precinct_nums acc = Returns stations.
Proof.
  intros Hfit Hk. revert acc.
  induction precinct_nums as [|num nums IH]; intros acc; simpl; [by eexists|].
  case_bool_decide as Hlen; [apply IH|].
  destruct (Hfit k (point_geometry
              <$> filter (λ p, point_precinct p = num) patrol_points))
    as (centers & clusters & -> & _); [rewrite length_fmap; lia|].
  apply IH.
Qed.

(** The stations of one precinct number, among all the blocks. *)
Lemma blocks_of_precinct k patrol_points precinct_nums blocks precinct_num :
  NoDup precinct_nums →
  Forall2 (precinct_block k patrol_points) precinct_nums blocks →
  ((precinct_num ∉ precinct_nums)
   ∧ filter (λ s, station_precinct s = precinct_num) (concat blocks) = [])
  ∨ (precinct_num ∈ precinct_nums
     ∧ precinct_block k patrol_points precinct_num
         (filter (λ s, station_precinct s = precinct_num) (concat blocks))).
Proof.
  intros Hnd Hblocks.
  induction Hblocks as [|num block nums blocks Hblock _ IH]; simpl.
  - left. split; [apply not_elem_of_nil|done].
  - apply NoDup_cons in Hnd as [Hnum Hnd]. rewrite filter_app.
    pose proof (precinct_block_precinct _ _ _ _ Hblock) as Hprecinct.
    destruct (decide (precinct_num = num)) as [->|Hne].
    + right. split; [by left|].
      destruct (IH Hnd) as [[_ ->]|[? _]]; [|done].
      rewrite app_nil_r.
      replace (filter (λ s, station_precinct s = num) block) with block; [done|].
      clear Hblock. induction Hprecinct as [|s l Hs _ IHl]; [done|].
      by rewrite filter_cons_True, <-IHl.
    + replace (filter (λ s, station_precinct s = precinct_num) block)
        with (@nil Station).
      * simpl. destruct (IH Hnd) as [[? ?]|[? ?]]; [left|right].
        -- split; [|done]. rewrite not_elem_of_cons. done.
        -- split; [by right|done].
      * clear Hblock. induction Hprecinct as [|s l Hs _ IHl]; [done|].
        rewrite filter_cons_False by congruence. done.
Qed.

Lemma length_blocks k patrol_points precinct_nums blocks :
  kmeans_contract → 1 ≤ k →
  Forall2 (precinct_block k patrol_points) precinct_nums blocks →
  length (concat blocks)
  = k * length (filter
      (λ num, k ≤ length (filter (λ p, point_precinct p = num) patrol_points))
      precinct_nums).
Proof.
  intros Hfit Hk Hblocks.
  induction Hblocks as [|num block nums blocks Hblock _ IH]; simpl; [lia|].
  rewrite length_app, IH.
  destruct Hblock as [[Hlen ->]|(Hlen & centers & clusters & Hrun & ->)].
  - rewrite filter_cons_False by lia. done.
  - rewrite filter_cons_True by done. rewrite length_make_stations. simpl.
    destruct (Hfit k (point_geometry
                <$> filter (λ p, point_precinct p = num) patrol_points))
      as (centers' & clusters' & Hrun' & <-); [rewrite length_fmap; lia|].
    rewrite Hrun in Hrun'. injection Hrun' as -> _. lia.
Qed.

(** A placement that returns is a run of the loop that gave at least one
    station. *)
Lemma optimize_patrol_stations_returns k patrol_points constable_precincts
    stations :
  optimize_patrol_stations patrol_points constable_precincts k
    = Returns stations →
  optimize_loop k patrol_points (unique (PCT_NUM <$> constable_precincts)) []
    = Returns stations
  ∧ stations ≠ [].
Proof.
  unfold optimize_patrol_stations.
  destruct (optimize_loop _ _ _ _) as [[|s l]| |]; simpl; [done| |done..].
  by intros [= <-].
Qed.

(** C4 (as amended): with scikit-learn's guarantee,
    [1 <= num_stations_per_precinct] and at least one eligible precinct
    number, the placement returns; a precinct with at least that many points
    owns exactly that many stations, a precinct with fewer owns none; and
    the number of stations is that number times the number of eligible
    precinct numbers. *)
Theorem stations_per_eligible_precinct k patrol_points constable_precincts :
  kmeans_contract → 1 ≤ k →
  let eligible :=
    filter
      (λ num, k ≤ length (filter (λ p, point_precinct p = num) patrol_points))
      (unique (PCT_NUM <$> constable_precincts)) in
  eligible ≠ [] →
  ∃ stations,
    optimize_patrol_stations patrol_points constable_precincts k
      = Returns stations
    ∧ (∀ precinct, precinct ∈ constable_precincts →
        length (filter (λ s, station_precinct s = PCT_NUM precinct) stations)
        = if decide (k ≤ length (filter
               (λ p, point_precinct p = PCT_NUM precinct) patrol_points))
          then k else 0)
    ∧ length stations = k * length eligible.
Proof.
  intros Hfit Hk eligible Hsome.
  destruct (optimize_loop_returns k patrol_points
              (unique (PCT_NUM <$> constable_precincts)) [] Hfit Hk)
    as [stations Hrun].
  destruct (optimize_loop_blocks _ _ _ _ _ Hrun) as (blocks & Hstations & Hblocks).
  simpl in Hstations.
  pose proof (length_blocks k patrol_points _ blocks Hfit Hk Hblocks) as Hlen.
  fold eligible in Hlen. rewrite <-Hstations in Hlen.
  exists stations. split; [|split; [|done]].
  - unfold optimize_patrol_stations. rewrite Hrun. simpl.
    destruct stations as [|s stations]; [|done].
    destruct eligible; [done|]. simpl in Hlen. lia.
  - rewrite Hstations. intros precinct Hin.
    destruct (blocks_of_precinct k patrol_points _ blocks (PCT_NUM precinct)
                (NoDup_unique _) Hblocks) as [[Hout _]|[_ Hblock]].
    { destruct Hout. apply elem_of_unique, list_elem_of_fmap. eauto. }
    destruct Hblock as [[Hlt ->]|(Hge & centers & clusters & Hrun' & ->)].
    + by rewrite decide_False by lia.
    + rewrite decide_True by done. rewrite length_make_stations.
      destruct (Hfit k (point_geometry <$> filter
                  (λ p, point_precinct p = PCT_NUM precinct) patrol_points))
        as (centers' & clusters' & Hrun'' & <-); [rewrite length_fmap; lia|].
      rewrite Hrun' in Hrun''. by injection Hrun'' as -> _.
Qed.

(** C9 (as amended): the identifier of a station is the letter S, the
    precinct number, an underscore and the 1-based position of the station
    among the stations of its precinct; within a precinct the identifiers
    are pairwise distinct. *)
Theorem station_ids_within_precinct k patrol_points constable_precincts
    stations precinct_num :
  optimize_patrol_stations patrol_points constable_precincts k
    = Returns stations →
  let mine := filter (λ s, station_precinct s = precinct_num) stations in
  (∀ i s, mine !! i = Some s →
     station_id s
     = "S" +:+ pretty precinct_num +:+ "_" +:+ pretty (Z.of_nat i + 1)%Z)
  ∧ NoDup (station_id <$> mine).
Proof.
  intros Hrun mine. apply optimize_patrol_stations_returns in Hrun as [Hrun _].
  assert (Hid : ∀ i s, mine !! i = Some s →
     station_id s
     = "S" +:+ pretty precinct_num +:+ "_" +:+ pretty (Z.of_nat i + 1)%Z).
  { subst mine.
    destruct (optimize_loop_blocks _ _ _ _ _ Hrun) as (blocks & -> & Hblocks).
    simpl.
    destruct (blocks_of_precinct k patrol_points _ blocks precinct_num
                (NoDup_unique _) Hblocks) as [[_ ->]|[_ Hblock]]; [done|].
    destruct Hblock as [[_ ->]|(_ & centers & clusters & _ & ->)]; [done|].
    intros i s Hs. by apply make_stations_lookup in Hs as [_ ?]. }
  split; [done|].
  apply NoDup_alt. intros i j id. rewrite !list_lookup_fmap.
  destruct (mine !! i) as [s1|] eqn:H1; [|done].
  destruct (mine !! j) as [s2|] eqn:H2; [|done].
  simpl. intros [= <-] [= Heq].
  rewrite (Hid _ _ H1), (Hid _ _ H2) in Heq.
  apply (inj (String.append _)) in Heq.
  apply (inj (String.append _)) in Heq.
  apply (inj (String.append _)) in Heq.
  apply (inj pretty) in Heq. lia.
Qed.
End placement_facts.

Lemma first_centers_contract : kmeans_contract.
Proof.
  intros k coords Hk. exists (take k coords). eexists. simpl.
  rewrite decide_True by done. split; [done|].
  rewrite length_take. lia.
Qed.

Example sample_points_per_precinct :
  length (filter (λ p, point_precinct p = 1%Z) Sample.patrol_points) = 7
  ∧ length (filter (λ p, point_precinct p = 2%Z) Sample.patrol_points) = 92.
Proof. split; vm_compute; reflexivity. Qed.

Lemma stations_per_eligible_precinct_witness :
  ∃ stations,
    optimize_patrol_stations Sample.patrol_points Sample.constable_precincts 8
      = Returns stations
    ∧ (∀ precinct, precinct ∈ Sample.constable_precincts →
        length (filter (λ s, station_precinct s = PCT_NUM precinct) stations)
        = if decide (8 ≤ length (filter
               (λ p, point_precinct p = PCT_NUM precinct) Sample.patrol_points))
          then 8 else 0)
    ∧ length stations
      = 8 * length (filter
          (λ num, 8 ≤ length (filter (λ p, point_precinct p = num)
                                Sample.patrol_points))
          (unique (PCT_NUM <$> Sample.constable_precincts))).
Proof.
  apply (stations_per_eligible_precinct 8 Sample.patrol_points
           Sample.constable_precincts).
  - apply first_centers_contract.
  - lia.
  - vm_compute. discriminate.
Defined.

(** C4, as the specification states it, fails: on the sample with 200
    stations asked for, each of the two precincts has fewer than 200
    points; the placement does not return a collection with zero stations,
    it raises [ValueError]. *)
Lemma placement_without_eligible_precinct_raises :
  Forall (λ precinct,
    length (filter (λ p, point_precinct p = PCT_NUM precinct)
                   Sample.patrol_points) < 200)
    Sample.constable_precincts
  ∧ optimize_patrol_stations Sample.patrol_points Sample.constable_precincts
      200 = Raises ValueError
  ∧ ∀ stations,
      optimize_patrol_stations Sample.patrol_points Sample.constable_precincts
        200 ≠ Returns stations.
Proof.
  assert (Hrun : optimize_patrol_stations Sample.patrol_points
                   Sample.constable_precincts 200 = Raises ValueError).
  { vm_compute. reflexivity. }
  split; [|split].
  - repeat constructor; vm_compute; lia.
  - exact Hrun.
  - intros stations. rewrite Hrun. discriminate.
Qed.

(** On the sample, with 8 stations asked for, precinct 1 (7 points) gets no
    station and precinct 2 (92 points) gets 8. *)
Example sample_station_counts :
  ∃ stations,
    optimize_patrol_stations Sample.patrol_points Sample.constable_precincts 8
      = Returns stations
    ∧ station_id <$> stations
      = ["S2_1"; "S2_2"; "S2_3"; "S2_4"; "S2_5"; "S2_6"; "S2_7"; "S2_8"].
Proof. eexists. split; vm_compute; reflexivity. Qed.

Lemma station_ids_within_precinct_witness :
  ∃ stations,
    optimize_patrol_stations Sample.patrol_points Sample.constable_precincts 8
      = Returns stations
    ∧ let mine := filter (λ s, station_precinct s = 2%Z) stations in
      (∀ i s, mine !! i = Some s →
         station_id s
         = "S" +:+ pretty 2%Z +:+ "_" +:+ pretty (Z.of_nat i + 1)%Z)
      ∧ NoDup (station_id <$> mine).
Proof.
  eexists. split; [vm_compute; reflexivity|].
  apply (station_ids_within_precinct 8 Sample.patrol_points
           Sample.constable_precincts).
  vm_compute. reflexivity.
Defined.

(** C9, as the specification states it, fails: the identifier of the first
    station of precinct 1 is ["S1_1"], which is ["{precinct}_{index}"] for
    no index. *)
Lemma station_id_is_not_precinct_index :
  ∃ stations s,
    optimize_patrol_stations Sample.patrol_points Sample.constable_precincts 3
      = Returns stations
    ∧ stations !! 0%nat = Some s
    ∧ station_precinct s = 1%Z
    ∧ station_id s = "S1_1"
    ∧ ∀ index, station_id s ≠ spec_facility_id (station_precinct s) index.
Proof.
  eexists _, _. split; [vm_compute; reflexivity|].
  split; [reflexivity|]. split; [reflexivity|]. split; [reflexivity|].
  intros index. simpl. unfold spec_facility_id.
  change (pretty 1%Z) with "1". simpl. discriminate.
Qed.

(** * Stage 1: point generation *)

(** Rows that are tagged with distinct keys are recovered from the
    concatenation by filtering on the key. *)
Lemma filter_concat_tagged {X K : Type} `{EqDecision K} (tag : X → K)
    (keys : list K) (chunks : list (list X)) (i : nat) (key : K)
    (chunk : list X) :
  NoDup keys →
  Forall2 (λ k c, Forall (λ x, tag x = k) c) keys chunks →
  keys !! i = Some key → chunks !! i = Some chunk →
  filter (λ x, tag x = key) (concat chunks) = chunk.
Proof.
  intros Hnd Htag. revert i.
  assert (Hall : ∀ k (c : list X),
            Forall (λ x, tag x = k) c → filter (λ x, tag x = k) c = c).
  { intros k c Hc. induction Hc as [|x c Hx _ IH]; [done|].
    by rewrite filter_cons_True, IH. }
  assert (Hnone : ∀ k (c : list X), k ≠ key →
            Forall (λ x, tag x = k) c → filter (λ x, tag x = key) c = []).
  { intros k c Hk Hc. induction Hc as [|x c Hx _ IH]; [done|].
    rewrite filter_cons_False by congruence. done. }
  induction Htag as [|k c keys chunks Hc Htag IH]; intros i Hkey Hchunk.
  - done.
  - apply NoDup_cons in Hnd as [Hk Hnd]. simpl. rewrite filter_app.
    destruct i as [|i]; simpl in *.
    + injection Hkey as ->. injection Hchunk as ->.
      rewrite (Hall _ _ Hc).
      replace (filter (λ x, tag x = key) (concat chunks)) with (@nil X);
        [by rewrite app_nil_r|].
      clear IH. induction Htag as [|k' c' keys' chunks' Hc' _ IH']; [done|].
      simpl. rewrite filter_app.
      apply not_elem_of_cons in Hk as [Hne Hk].
      apply NoDup_cons in Hnd as [_ Hnd].
      rewrite (Hnone k' c'), <-IH' by done. done.
    + rewrite (Hnone k c), (IH Hnd i) by
        (try done; intros ->; apply Hk; by eapply list_elem_of_lookup_2).
      done.
Qed.

Section generation_facts.
Context {geometry : Type} `{Shapely geometry} `{!Pandas float}.
Variable draws : nat → float.
Implicit Types (precinct : Precinct geometry) (points : list PatrolPoint).
Implicit Types (constable_precincts rows : list (Precinct geometry)).

Lemma candidate_position precinct pos :
  (candidate draws precinct pos).2 = S (S pos).
Proof.
  unfold candidate, uniform.
  by destruct (bounds (precinct_geometry precinct)) as [[[minx miny] maxx] maxy].
Qed.

(** Partial correctness of the rejection loop: it stops with exactly the
    quota, having appended points of the precinct only. *)
Lemma rejection_loop_returns fuel precinct quota points pos points' pos' :
  rejection_loop draws fuel precinct quota points pos = Returns (points', pos') →
  (Z.of_nat (length points) ≤ quota)%Z →
  ∃ added, points' = points ++ added
    ∧ Z.of_nat (length points') = quota
    ∧ Forall (λ p, contains (precinct_geometry precinct) (point_geometry p)
                   = true) added
    ∧ Forall (λ p, point_precinct p = PCT_NUM precinct) added.
Proof.
  revert points pos. induction fuel as [|fuel IH]; intros points pos; simpl.
  - case_bool_decide as Hlen; [done|]. intros [= <- <-] Hle.
    exists []. rewrite app_nil_r. repeat split; [lia|constructor..].
  - case_bool_decide as Hlen.
    + destruct (candidate draws precinct pos) as [point pos1].
      destruct (contains (precinct_geometry precinct) point) eqn:Hin.
      * intros Hrun _. apply IH in Hrun as (added & Heq & Hq & Hc & Ht);
          [|rewrite length_app; simpl; lia].
        exists (new_point precinct point points :: added).
        split; [by rewrite Heq, <-app_assoc|]. split; [done|].
        split; by constructor.
      * intros Hrun Hle. by apply IH in Hrun.
    + intros [= <- <-] Hle.
      exists []. rewrite app_nil_r. repeat split; [lia|constructor..].
Qed.

(** More fuel does not change a result. *)
Lemma rejection_loop_more_fuel fuel extra precinct quota points pos result :
  rejection_loop draws fuel precinct quota points pos = Returns result →
  rejection_loop draws (fuel + extra) precinct quota points pos = Returns result.
Proof.
  revert points pos. induction fuel as [|fuel IH]; intros points pos; simpl.
  - case_bool_decide as Hlen; [done|]. intros <-.
    destruct extra; simpl; by rewrite bool_decide_false.
  - case_bool_decide as Hlen; [|done].
    destruct (candidate draws precinct pos) as [point pos1].
    destruct (contains (precinct_geometry precinct) point); apply IH.
Qed.

(** When a later pass is accepted, the loop gets one point further. *)
Lemma rejection_loop_progress n precinct quota points pos :
  accepted draws precinct (pos + 2 * n) = true →
  (Z.of_nat (length points) < quota)%Z →
  ∃ passes point pos', ∀ fuel,
    rejection_loop draws (passes + fuel) precinct quota points pos
    = rejection_loop draws fuel precinct quota
        (points ++ [new_point precinct point points]) pos'.
Proof.
  intros Hacc Hlen. revert pos Hacc.
  induction n as [|n IH]; intros pos Hacc.
  - rewrite Nat.add_0_r in Hacc. unfold accepted in Hacc.
    exists 1, (candidate draws precinct pos).1, (candidate draws precinct pos).2.
    intros fuel. simpl. rewrite bool_decide_true by done.
    destruct (candidate draws precinct pos) as [point pos1]. simpl in *.
    by rewrite Hacc.
  - destruct (accepted draws precinct pos) eqn:Hnow.
    + unfold accepted in Hnow.
      exists 1, (candidate draws precinct pos).1,
        (candidate draws precinct pos).2.
      intros fuel. simpl. rewrite bool_decide_true by done.
      destruct (candidate draws precinct pos) as [point pos1]. simpl in *.
      by rewrite Hnow.
    + destruct (IH (S (S pos))) as (passes & point & pos' & Hrun).
      { by replace (S (S pos) + 2 * n) with (pos + 2 * S n) by lia. }
      exists (S passes), point, pos'. intros fuel. simpl.
      rewrite bool_decide_true by done.
      pose proof (candidate_position precinct pos) as Hpos.
      unfold accepted in Hnow.
      destruct (candidate draws precinct pos) as [point1 pos1]. simpl in *.
      rewrite Hnow. subst pos1. apply Hrun.
Qed.

(** With accepted passes always ahead, the loop of a precinct returns. *)
Lemma rejection_loop_terminates precinct quota points pos :
  (∀ pos, ∃ n, accepted draws precinct (pos + 2 * n) = true) →
  ∃ fuel result,
    rejection_loop draws fuel precinct quota points pos = Returns result.
Proof.
  intros Hfair.
  remember (Z.to_nat (quota - Z.of_nat (length points))) as deficit eqn:Hd.
  revert points pos Hd.
  induction deficit as [|deficit IH]; intros points pos Hd.
  - exists 0, (points, pos). simpl. rewrite bool_decide_false by lia. done.
  - destruct (Hfair pos) as [n Hacc].
    destruct (rejection_loop_progress n precinct quota points pos Hacc)
      as (passes & point & pos' & Hrun); [lia|].
    destruct (IH (points ++ [new_point precinct point points]) pos')
      as (fuel & result & Hrest); [rewrite length_app; simpl; lia|].
    exists (passes + fuel), result. by rewrite Hrun.
Qed.

(** Partial correctness of the loop over the precincts: one chunk per row,
    in order. *)
Lemma generate_rows_returns fuel num_points constable_precincts rows
    all_points pos points pos' :
  generate_rows draws fuel num_points constable_precincts rows all_points pos
    = Returns (points, pos') →
  ∃ chunks, points = all_points ++ concat chunks
    ∧ Forall2 (precinct_chunk num_points constable_precincts) rows chunks.
Proof.
  revert all_points pos.
  induction rows as [|precinct rows IH]; intros all_points pos; simpl.
  - intros [= <- <-]. exists []. by rewrite app_nil_r.
  - unfold precinct_quota.
    destruct (F64.to_int _) as [n|] eqn:Hn; simpl; [|done].
    destruct (rejection_loop draws fuel precinct (Z.max 5 n) [] pos)
      as [[chunk pos1]| |] eqn:Hloop; simpl; [|done..].
    intros Hrun. apply IH in Hrun as (chunks & -> & Hchunks).
    exists (chunk :: chunks). split; [by rewrite <-app_assoc|].
    constructor; [|done].
    apply rejection_loop_returns in Hloop as (added & -> & Hq & Hc & Ht);
      [|simpl; lia].
    by exists n.
Qed.

Lemma generate_rows_more_fuel fuel extra num_points constable_precincts rows
    all_points pos result :
  generate_rows draws fuel num_points constable_precincts rows all_points pos
    = Returns result →
  generate_rows draws (fuel + extra) num_points constable_precincts rows
    all_points pos = Returns result.
Proof.
  revert all_points pos.
  induction rows as [|precinct rows IH]; intros all_points pos; simpl; [done|].
  destruct (precinct_quota _ _ _) as [quota|]; [|done].
  destruct (rejection_loop draws fuel precinct quota [] pos)
    as [[chunk pos1]| |] eqn:Hloop; simpl; [|done..].
  rewrite (rejection_loop_more_fuel _ _ _ _ _ _ _ Hloop). simpl. apply IH.
Qed.

(** With a fair generator and quotas that are defined, the loop over the
    precincts returns, given enough fuel. *)
Lemma generate_rows_terminates num_points constable_precincts rows
    all_points pos :
  fair draws rows →
  Forall (λ precinct,
    is_Some (precinct_quota num_points constable_precincts precinct)) rows →
  ∃ fuel result,
    generate_rows draws fuel num_points constable_precincts rows all_points pos
    = Returns result.
Proof.
  intros Hfair Hquota. revert all_points pos.
  induction Hquota as [|precinct rows [quota Hq] _ IH]; intros all_points pos.
  - by exists 0, (all_points, pos).
  - destruct (rejection_loop_terminates precinct quota [] pos)
      as (fuel1 & [chunk pos1] & Hloop).
    { intros pos0. apply Hfair. by left. }
    destruct IH with (all_points := all_points ++ chunk) (pos := pos1)
      as (fuel2 & result & Hrest).
    { intros p pos0 Hp. apply Hfair. by right. }
    exists (fuel1 + fuel2), result. simpl. rewrite Hq.
    rewrite (rejection_loop_more_fuel _ fuel2 _ _ _ _ _ Hloop). simpl.
    rewrite Nat.add_comm. by apply generate_rows_more_fuel.
Qed.

(** The points that carry the number of a precinct are its chunk. *)
Lemma generated_points_of_precinct num_points constable_precincts chunks
    precinct :
  NoDup (PCT_NUM <$> constable_precincts) →
  Forall2 (precinct_chunk num_points constable_precincts)
          constable_precincts chunks →
  precinct ∈ constable_precincts →
  precinct_chunk num_points constable_precincts precinct
    (filter (λ p, point_precinct p = PCT_NUM precinct) (concat chunks)).
Proof.
  intros Hnd Hchunks Hin.
  apply list_elem_of_lookup in Hin as [i Hi].
  destruct (Forall2_lookup_l _ _ _ _ _ Hchunks Hi) as (chunk & Hchunk & Hspec).
  rewrite (filter_concat_tagged point_precinct (PCT_NUM <$> constable_precincts)
             chunks i (PCT_NUM precinct) chunk); try done.
  - apply Forall2_fmap_l. eapply Forall2_impl; [exact Hchunks|].
    by intros p c (n & _ & _ & _ & Ht).
  - by rewrite list_lookup_fmap, Hi.
Qed.

(** A generation that returns is a run of the loop over the precincts that
    gave at least one point. *)
Lemma generate_patrol_points_returns fuel constable_precincts num_points pos
    points pos' :
  generate_patrol_points draws fuel constable_precincts num_points pos
    = Returns (points, pos') →
  generate_rows draws fuel num_points constable_precincts constable_precincts
    [] pos = Returns (points, pos')
  ∧ points ≠ [].
Proof.
  unfold generate_patrol_points.
  destruct (generate_rows _ _ _ _ _ _ _) as [[[|p l] pos1]| |]; simpl;
    [done| |done..].
  by intros [= <- <-].
Qed.

(** The chunks of at least one precinct hold at least one point. *)
Lemma chunks_nonempty num_points constable_precincts rows chunks :
  Forall2 (precinct_chunk num_points constable_precincts) rows chunks →
  rows ≠ [] → concat chunks ≠ [].
Proof.
  intros [|precinct chunk rows' chunks' (n & _ & Hlen & _) _]; [done|].
  intros _. simpl. destruct chunk; [simpl in Hlen; lia|done].
Qed.

(** With at least one precinct, a fair generator and quotas that are
    defined, the generation returns, given enough fuel. *)
Lemma generate_patrol_points_terminates num_points constable_precincts pos :
  constable_precincts ≠ [] →
  fair draws constable_precincts →
  Forall (λ precinct,
    is_Some (precinct_quota num_points constable_precincts precinct))
    constable_precincts →
  ∃ fuel result,
    generate_patrol_points draws fuel constable_precincts num_points pos
    = Returns result.
Proof.
  intros Hne Hfair Hquota.
  destruct (generate_rows_terminates num_points constable_precincts
              constable_precincts [] pos Hfair Hquota)
    as (fuel & [points pos'] & Hrun).
  exists fuel, (points, pos'). unfold generate_patrol_points.
  rewrite Hrun. simpl.
  apply generate_rows_returns in Hrun as (chunks & -> & Hchunks). simpl.
  pose proof (chunks_nonempty _ _ _ _ Hchunks Hne).
  by destruct (concat chunks).
Qed.

(** C2 (as amended): with at least one precinct, distinct precinct numbers,
    a fair generator and quotas that are defined, the generation returns,
    and the number of points of every precinct is
    [max(5, int(num_points * (area / sum)))], the sum being the
    [Series.sum] of the areas, the product being computed in binary64 and
    [int] truncating it towards zero. *)
Theorem points_per_precinct_truncated num_points constable_precincts pos :
  constable_precincts ≠ [] →
  NoDup (PCT_NUM <$> constable_precincts) →
  fair draws constable_precincts →
  Forall (λ precinct,
    is_Some (precinct_quota num_points constable_precincts precinct))
    constable_precincts →
  (∃ fuel result,
     generate_patrol_points draws fuel constable_precincts num_points pos
     = Returns result)
  ∧ ∀ fuel points pos',
      generate_patrol_points draws fuel constable_precincts num_points pos
        = Returns (points, pos') →
      ∀ precinct, precinct ∈ constable_precincts →
        ∃ n, F64.to_int (F64.of_Z num_points *
               (precinct_area_sq_km precinct /
                series_sum (precinct_area_sq_km <$> constable_precincts)))%float
             = Some n
          ∧ Z.of_nat (length (filter
                (λ p, point_precinct p = PCT_NUM precinct) points))
            = Z.max 5 n.
Proof.
  intros Hne Hnd Hfair Hquota. split.
  - by apply generate_patrol_points_terminates.
  - intros fuel points pos' Hrun precinct Hin.
    apply generate_patrol_points_returns in Hrun as [Hrun _].
    apply generate_rows_returns in Hrun as (chunks & -> & Hchunks). simpl.
    destruct (generated_points_of_precinct _ _ _ _ Hnd Hchunks Hin)
      as (n & Hn & Hlen & _).
    by exists n.
Qed.

(** C3: with at least one precinct, distinct precinct numbers, a fair
    generator and quotas that are defined, the generation returns, every
    precinct has at least 5 points, and every point of a precinct passes the
    containment test of its polygon. *)
Theorem points_inside_their_precinct num_points constable_precincts pos :
  constable_precincts ≠ [] →
  NoDup (PCT_NUM <$> constable_precincts) →
  fair draws constable_precincts →
  Forall (λ precinct,
    is_Some (precinct_quota num_points constable_precincts precinct))
    constable_precincts →
  (∃ fuel result,
     generate_patrol_points draws fuel constable_precincts num_points pos
     = Returns result)
  ∧ ∀ fuel points pos',
      generate_patrol_points draws fuel constable_precincts num_points pos
        = Returns (points, pos') →
      ∀ precinct, precinct ∈ constable_precincts →
        let mine := filter (λ p, point_precinct p = PCT_NUM precinct) points in
        5 ≤ length mine
        ∧ Forall (λ p, contains (precinct_geometry precinct) (point_geometry p)
                       = true) mine.
Proof.
  intros Hne Hnd Hfair Hquota. split.
  - by apply generate_patrol_points_terminates.
  - intros fuel points pos' Hrun precinct Hin.
    apply generate_patrol_points_returns in Hrun as [Hrun _].
    apply generate_rows_returns in Hrun as (chunks & -> & Hchunks). simpl.
    destruct (generated_points_of_precinct _ _ _ _ Hnd Hchunks Hin)
      as (n & Hn & Hlen & Hinside & _).
    split; [lia|done].
Qed.
End generation_facts.

(** The sample generator is fair for the sample precincts: of two
    successive passes, one is accepted. *)
Lemma sample_draws_fair : fair Sample.draws Sample.constable_precincts.
Proof.
  intros precinct pos Hin.
  assert (Hcases : accepted Sample.draws precinct pos = true
                   ∨ accepted Sample.draws precinct (pos + 2) = true).
  { unfold accepted, candidate, uniform, Sample.draws.
    replace (S pos) with (pos + 1) by lia.
    replace (S (pos + 2)) with (pos + 3) by lia.
    rewrite <-(Nat.Div0.add_mod_idemp_l pos 1),
            <-(Nat.Div0.add_mod_idemp_l pos 2),
            <-(Nat.Div0.add_mod_idemp_l pos 3).
    pose proof (Nat.mod_upper_bound pos 4) as Hr.
    destruct (pos `mod` 4) as [|[|[|[|r]]]]; [| | | |lia];
      repeat (apply elem_of_cons in Hin as [->|Hin]);
      try (by apply elem_of_nil in Hin);
      vm_compute; auto. }
  destruct Hcases as [Hnow|Hnext].
  - exists 0. by rewrite Nat.add_0_r.
  - by exists 1.
Qed.

Lemma sample_quotas_defined :
  Forall (λ precinct,
    is_Some (precinct_quota 100 Sample.constable_precincts precinct))
    Sample.constable_precincts.
Proof. repeat constructor; vm_compute; by eexists. Qed.

Example to_int_truncates :
  F64.to_int 7.6 = Some 7%Z ∧ F64.to_int (-7.6) = Some (-7)%Z
  ∧ F64.to_int nan = None ∧ F64.to_int infinity = None.
Proof. repeat split; vm_compute; reflexivity. Qed.

Lemma points_per_precinct_truncated_witness :
  (∃ fuel result,
     generate_patrol_points Sample.draws fuel Sample.constable_precincts 100 0
     = Returns result)
  ∧ ∀ fuel points pos',
      generate_patrol_points Sample.draws fuel Sample.constable_precincts 100 0
        = Returns (points, pos') →
      ∀ precinct, precinct ∈ Sample.constable_precincts →
        ∃ n, F64.to_int (F64.of_Z 100 *
               (precinct_area_sq_km precinct /
                series_sum (precinct_area_sq_km <$> Sample.constable_precincts)))%float
             = Some n
          ∧ Z.of_nat (length (filter
                (λ p, point_precinct p = PCT_NUM precinct) points))
            = Z.max 5 n.
Proof.
  apply (points_per_precinct_truncated Sample.draws 100
           Sample.constable_precincts 0).
  - done.
  - apply (bool_decide_unpack _). vm_compute. reflexivity.
  - apply sample_draws_fair.
  - apply sample_quotas_defined.
Defined.

(** C2, as the specification states it, fails: precinct 1 has the positive
    area 76 out of 1000 and the budget is 100; the run gives it
    [int(7.6) = 7] points, where [max(5, round(7.6))] is 8. *)
Lemma point_count_is_not_rounded :
  ∃ points pos',
    generate_patrol_points Sample.draws 200 Sample.constable_precincts 100 0
      = Returns (points, pos')
    ∧ (0 <? precinct_area_sq_km Sample.precinct1)%float = true
    ∧ Z.of_nat (length (filter
          (λ p, point_precinct p = PCT_NUM Sample.precinct1) points)) = 7%Z
    ∧ spec_precinct_points 100 Sample.constable_precincts Sample.precinct1
      = 8%Z.
Proof.
  eexists _, _. split; [vm_compute; reflexivity|].
  split; [|split]; vm_compute; reflexivity.
Qed.

Lemma points_inside_their_precinct_witness :
  (∃ fuel result,
     generate_patrol_points Sample.draws fuel Sample.constable_precincts 100 0
     = Returns result)
  ∧ ∀ fuel points pos',
      generate_patrol_points Sample.draws fuel Sample.constable_precincts 100 0
        = Returns (points, pos') →
      ∀ precinct, precinct ∈ Sample.constable_precincts →
        let mine := filter (λ p, point_precinct p = PCT_NUM precinct) points in
        5 ≤ length mine
        ∧ Forall (λ p, contains (precinct_geometry precinct) (point_geometry p)
                       = true) mine.
Proof.
  apply (points_inside_their_precinct Sample.draws 100
           Sample.constable_precincts 0).
  - done.
  - apply (bool_decide_unpack _). vm_compute. reflexivity.
  - apply sample_draws_fair.
  - apply sample_quotas_defined.
Defined.

(** * More facts about binary64 *)

Module F64_more_facts.

Import F64 F64_facts.
Local Open Scope float_scope.

(** Infinities and NaN are closed under the operations of the quota and of
    the Gini formula. *)
Lemma inf_or_nan_mul x y : inf_or_nan y = true → inf_or_nan (x * y) = true.
Proof.
  unfold inf_or_nan. rewrite mul_spec.
  by destruct (Prim2SF x) as [s|s| |s m e],
              (Prim2SF y) as [s'|s'| |s' m' e'].
Qed.

Lemma inf_or_nan_add x y :
  inf_or_nan x = true ∨ zero_or_nan x = true →
  inf_or_nan y = true → inf_or_nan (x + y) = true.
Proof.
  unfold inf_or_nan, zero_or_nan. rewrite add_spec.
  destruct (Prim2SF x) as [s|s| |s m e],
           (Prim2SF y) as [s'|s'| |s' m' e']; try done;
    try (by intros [?|?]); by destruct s, s'.
Qed.

Lemma inf_or_nan_div x y :
  inf_or_nan x = true → inf_or_nan y = true → PrimFloat.is_nan (x / y) = true.
Proof.
  unfold inf_or_nan. intros Hx Hy. apply is_nan_spec. rewrite div_spec.
  by destruct (Prim2SF x) as [s|s| |s m e],
              (Prim2SF y) as [s'|s'| |s' m' e'].
Qed.

Lemma div_by_zero x y :
  Prim2SF y = S754_zero false ∨ Prim2SF y = S754_zero true →
  inf_or_nan (x / y) = true.
Proof.
  unfold inf_or_nan. rewrite div_spec.
  by intros [-> | ->]; destruct (Prim2SF x) as [s|s| |s m e].
Qed.

Lemma nan_div x y : PrimFloat.is_nan x = true → inf_or_nan (x / y) = true.
Proof.
  intros Hx. apply is_nan_spec in Hx. unfold inf_or_nan.
  by rewrite div_spec, Hx.
Qed.

Lemma to_int_inf_or_nan x : inf_or_nan x = true → to_int x = None.
Proof. unfold inf_or_nan, to_int. by destruct (Prim2SF x). Qed.

Lemma to_int_zero_mul x n : to_int (0 * x) = Some n → n = 0%Z.
Proof.
  unfold to_int. rewrite mul_spec. change (Prim2SF 0) with (S754_zero false).
  destruct (Prim2SF x) as [s|s| |s m e]; simpl; congruence.
Qed.

Lemma zero_div x :
  finite_nonzero x = true → (0 / x =? 0) = true.
Proof.
  unfold finite_nonzero. rewrite FloatAxioms.eqb_spec, div_spec.
  change (Prim2SF 0) with (S754_zero false).
  by destruct (Prim2SF x) as [s|s| |s m e].
Qed.

Lemma ltb_not_nan x y : (x <? y) = true → PrimFloat.is_nan x = false.
Proof.
  rewrite ltb_spec. intros Hlt.
  destruct (PrimFloat.is_nan x) eqn:E; [|done].
  apply is_nan_spec in E. by rewrite E in Hlt.
Qed.

(** [<=] on floats: reflexive and total on numbers, transitive, and
    antisymmetric up to the sign of zero. *)
Lemma leb_refl x : PrimFloat.is_nan x = false → (x <=? x) = true.
Proof.
  intros Hx. rewrite leb_spec. unfold SFleb.
  rewrite SFcompare_refl; [done|]. intros E.
  apply is_nan_spec in E. congruence.
Qed.

Lemma SFleb_total x y :
  x ≠ S754_nan → y ≠ S754_nan → SFleb x y = false → SFleb y x = true.
Proof.
  unfold SFleb.
  destruct x as [sx|sx| |sx mx ex], y as [sy|sy| |sy my ey];
    simpl; try congruence; try (destruct sx, sy; simpl; congruence).
  change (PosDef.Pos.compare_cont Eq) with Pos.compare.
  rewrite (Z.compare_antisym ex ey), (Pos.compare_antisym mx my).
  destruct sx, sy; simpl; try congruence;
    destruct (ex ?= ey)%Z; simpl; try congruence;
    destruct (mx ?= my)%positive; simpl; congruence.
Qed.

Lemma SFleb_trans x y z :
  SFleb x y = true → SFleb y z = true → SFleb x z = true.
Proof.
  unfold SFleb.
  destruct x as [sx|sx| |sx mx ex], y as [sy|sy| |sy my ey],
           z as [sz|sz| |sz mz ez];
    simpl; try congruence;
    try (destruct sx, sy, sz; simpl; congruence).
  change (PosDef.Pos.compare_cont Eq) with Pos.compare.
  destruct sx, sy, sz; simpl; try congruence;
    destruct (Z.compare_spec ex ey), (Z.compare_spec ey ez),
             (Z.compare_spec ex ez);
    try congruence; try lia; subst;
    destruct (Pos.compare_spec mx my), (Pos.compare_spec my mz),
             (Pos.compare_spec mx mz);
    simpl; try congruence; try lia.
Qed.

Lemma SFleb_antisym x y :
  x ≠ S754_zero true → y ≠ S754_zero true →
  SFleb x y = true → SFleb y x = true → x = y.
Proof.
  unfold SFleb.
  destruct x as [sx|sx| |sx mx ex], y as [sy|sy| |sy my ey];
    simpl; try congruence; try (destruct sx, sy; simpl; congruence).
  change (PosDef.Pos.compare_cont Eq) with Pos.compare.
  intros _ _.
  destruct sx, sy; simpl; try congruence;
    destruct (Z.compare_spec ex ey), (Z.compare_spec ey ex);
    try congruence; try lia; subst;
    destruct (Pos.compare_spec mx my), (Pos.compare_spec my mx);
    simpl; try congruence; try lia.
Qed.

Lemma leb_total x y :
  PrimFloat.is_nan x = false → PrimFloat.is_nan y = false →
  (x <=? y) = false → (y <=? x) = true.
Proof.
  rewrite !leb_spec. intros Hx Hy. apply SFleb_total; intros E.
  - assert (PrimFloat.is_nan x = true) by (by apply is_nan_spec). congruence.
  - assert (PrimFloat.is_nan y = true) by (by apply is_nan_spec). congruence.
Qed.

Lemma leb_trans x y z :
  (x <=? y) = true → (y <=? z) = true → (x <=? z) = true.
Proof. rewrite !leb_spec. apply SFleb_trans. Qed.

Lemma leb_antisym x y :
  not_neg_zero x → not_neg_zero y →
  (x <=? y) = true → (y <=? x) = true → x = y.
Proof.
  unfold not_neg_zero. rewrite !leb_spec. intros Hx Hy Hxy Hyx.
  rewrite <-(SF2Prim_Prim2SF x), <-(SF2Prim_Prim2SF y).
  f_equal. by apply SFleb_antisym.
Qed.

End F64_more_facts.

(** * Identifiers *)

Example underscore_string : String underscore EmptyString = "_".
Proof. reflexivity. Qed.

Lemma has_char_app c s1 s2 :
  has_char c (s1 +:+ s2) = has_char c s1 || has_char c s2.
Proof.
  induction s1 as [|c' s1 IH]; simpl; [done|].
  by destruct (decide (c = c')).
Qed.

(** The decimal writing of a number has no underscore. *)
Lemma pretty_N_go_no_underscore x s :
  has_char underscore s = false → has_char underscore (pretty_N_go x s) = false.
Proof.
  revert s. induction (N.lt_wf_0 x) as [x _ IH]; intros s Hs.
  assert (x = 0 ∨ 0 < x)%N as [->|Hx] by lia; [done|].
  rewrite pretty_N_go_step by done. apply IH; [by apply N.div_lt|].
  simpl. rewrite Hs. unfold pretty_N_char. by repeat case_match.
Qed.

Lemma pretty_Z_no_underscore (z : Z) : has_char underscore (pretty z) = false.
Proof.
  assert (HN : ∀ n : N, has_char underscore (pretty n) = false).
  { intros n. unfold pretty, pretty_N. case_decide; [done|].
    by apply pretty_N_go_no_underscore. }
  destruct z as [|p|p]; [done|apply HN|].
  unfold pretty, pretty_Z. rewrite has_char_app. simpl.
  apply (HN (N.pos p)).
Qed.

(** A string is cut in one way only at its first underscore. *)
Lemma split_at_underscore s1 s2 t1 t2 :
  has_char underscore s1 = false → has_char underscore s2 = false →
  s1 +:+ "_" +:+ t1 = s2 +:+ "_" +:+ t2 → s1 = s2 ∧ t1 = t2.
Proof.
  change ("_" +:+ t1) with (String underscore t1).
  change ("_" +:+ t2) with (String underscore t2).
  revert s2. induction s1 as [|c s1 IH]; intros [|c' s2]; simpl.
  - intros _ _ [= ->]. done.
  - intros _ Hs2 [= <- _]. by rewrite decide_True in Hs2.
  - intros Hs1 _ [= -> _]. by rewrite decide_True in Hs1.
  - intros Hs1 Hs2 [= -> Heq].
    destruct (decide (underscore = c')); [done|].
    destruct (IH s2 Hs1 Hs2 Heq) as [-> ->]. done.
Qed.

(** The identifiers [<letter><number>_<position>] of the pipeline tell the
    number and the position. *)
Lemma formatted_id_inj (letter : string) (k1 k2 : Z) (i1 i2 : nat) :
  letter +:+ pretty k1 +:+ "_" +:+ pretty (Z.of_nat i1 + 1)%Z
  = letter +:+ pretty k2 +:+ "_" +:+ pretty (Z.of_nat i2 + 1)%Z →
  k1 = k2 ∧ i1 = i2.
Proof.
  intros Heq. apply (inj (String.append _)) in Heq.
  apply split_at_underscore in Heq as [Hk Hi];
    [|apply pretty_Z_no_underscore..].
  apply (inj pretty) in Hk. apply (inj pretty) in Hi. split; [done|lia].
Qed.

(** Blocks of such identifiers, one block per number, the numbers being
    distinct, never repeat an identifier. *)
Lemma NoDup_formatted_ids (letter : string) (keys : list Z)
    (blocks : list (list string)) :
  NoDup keys →
  Forall2 (λ key block, ∀ i id, block !! i = Some id →
             id = letter +:+ pretty key +:+ "_" +:+ pretty (Z.of_nat i + 1)%Z)
          keys blocks →
  NoDup (concat blocks).
Proof.
  intros Hnd Hblocks.
  induction Hblocks as [|key block keys blocks Hblock Hblocks IH]; simpl.
  - constructor.
  - apply NoDup_cons in Hnd as [Hkey Hnd]. apply NoDup_app. split; [|split].
    + apply NoDup_alt. intros i j id Hi Hj.
      pose proof (Hblock i id Hi) as E1. rewrite (Hblock j id Hj) in E1.
      by apply formatted_id_inj in E1 as [_ ?].
    + intros id Hin Hin'.
      apply list_elem_of_lookup in Hin as [i Hi].
      apply list_elem_of_In, in_concat in Hin' as (block' & Hblock' & Hid).
      apply list_elem_of_In in Hblock', Hid.
      apply list_elem_of_lookup in Hid as [j Hj].
      apply list_elem_of_lookup in Hblock' as [b Hb].
      destruct (Forall2_lookup_r _ _ _ _ _ Hblocks Hb) as (key' & Hkey' & Hfmt).
      pose proof (Hblock i id Hi) as E1. rewrite (Hfmt j id Hj) in E1.
      apply formatted_id_inj in E1 as [<- _].
      apply Hkey. by eapply list_elem_of_lookup_2.
    + by apply IH.
Qed.

Lemma fmap_concat {X Y : Type} (f : X → Y) (blocks : list (list X)) :
  f <$> concat blocks = concat ((λ block : list X, f <$> block) <$> blocks).
Proof.
  induction blocks as [|b blocks IH]; [done|].
  by rewrite fmap_cons, !concat_cons, fmap_app, IH.
Qed.

(** * Stage 2, continued *)

Section placement_more.
Context {geometry : Type} `{Sklearn}.
Implicit Types (patrol_points : list PatrolPoint) (precinct_nums : list Z).
Implicit Types (constable_precincts : list (Precinct geometry)).

Lemma precinct_block_ids k patrol_points precinct_num block :
  precinct_block k patrol_points precinct_num block →
  ∀ i id, (station_id <$> block) !! i = Some id →
    id = "S" +:+ pretty precinct_num +:+ "_" +:+ pretty (Z.of_nat i + 1)%Z.
Proof.
  intros Hblock i id. rewrite list_lookup_fmap.
  destruct (block !! i) as [s|] eqn:Hs; [|done]. intros [= <-].
  destruct Hblock as [[_ ->]|(_ & centers & clusters & _ & ->)]; [done|].
  by apply make_stations_lookup in Hs as [_ ?].
Qed.

Lemma optimize_loop_ids_distinct k patrol_points precinct_nums stations :
  NoDup precinct_nums →
  optimize_loop k patrol_points precinct_nums [] = Returns stations →
  NoDup (station_id <$> stations).
Proof.
  intros Hnd Hrun.
  destruct (optimize_loop_blocks _ _ _ _ _ Hrun) as (blocks & -> & Hblocks).
  simpl. rewrite fmap_concat.
  apply (NoDup_formatted_ids "S" precinct_nums); [done|].
  apply Forall2_fmap_r. eapply Forall2_impl; [exact Hblocks|].
  intros num block Hblock i id Hid. by eapply precinct_block_ids.
Qed.

(** X5: the station identifiers are pairwise distinct over the whole result, not
    only within a precinct. *)
Theorem station_ids_all_distinct k patrol_points constable_precincts stations :
  optimize_patrol_stations patrol_points constable_precincts k
    = Returns stations →
  NoDup (station_id <$> stations).
Proof.
  intros [Hrun _]%optimize_patrol_stations_returns.
  by eapply optimize_loop_ids_distinct; [apply NoDup_unique|].
Qed.

(** X6: A station is placed only in a listed precinct that has enough points:
    points that carry the number of no listed precinct are never
    clustered. *)
Theorem stations_only_in_eligible_precincts k patrol_points
    constable_precincts stations station :
  optimize_patrol_stations patrol_points constable_precincts k
    = Returns stations →
  station ∈ stations →
  station_precinct station ∈ PCT_NUM <$> constable_precincts
  ∧ k ≤ length (filter (λ p, point_precinct p = station_precinct station)
                       patrol_points).
Proof.
  intros [Hrun _]%optimize_patrol_stations_returns Hin.
  destruct (optimize_loop_blocks _ _ _ _ _ Hrun) as (blocks & -> & Hblocks).
  simpl in Hin.
  apply list_elem_of_In, in_concat in Hin as (block & Hblock & Hin).
  apply list_elem_of_In in Hblock, Hin.
  apply list_elem_of_lookup in Hblock as [b Hb].
  destruct (Forall2_lookup_r _ _ _ _ _ Hblocks Hb) as (num & Hnum & Hspec).
  pose proof (precinct_block_precinct _ _ _ _ Hspec) as Hprecinct.
  eapply Forall_forall in Hprecinct; [|exact Hin]. rewrite Hprecinct.
  split.
  - apply elem_of_unique. by eapply list_elem_of_lookup_2.
  - destruct Hspec as [[_ ->]|[Hlen _]]; [by apply elem_of_nil in Hin|done].
Qed.



(** The labels equal to [i], for [i] below [k], count every label below
    [k] once. *)
Lemma count_labels (k : nat) (clusters : list nat) :
  Forall (λ label, label < k) clusters →
  sum_list ((λ i, length (filter (λ c, c = i) clusters)) <$> seq 0 k)
  = length clusters.
Proof.
  induction 1 as [|label clusters Hlabel _ IH]; simpl.
  - induction (seq 0 k) as [|i l IHl]; [done|]. by rewrite fmap_cons.
  - rewrite <-IH. clear IH.
    assert (Hone : ∀ start n, start ≤ label < start + n →
      sum_list ((λ i, length (filter (λ c, c = i) (label :: clusters)))
                  <$> seq start n)
      = S (sum_list ((λ i, length (filter (λ c, c = i) clusters))
                       <$> seq start n))
      ∧ ∀ start n, ¬ (start ≤ label < start + n) →
      sum_list ((λ i, length (filter (λ c, c = i) (label :: clusters)))
                  <$> seq start n)
      = sum_list ((λ i, length (filter (λ c, c = i) clusters)) <$> seq start n)).
    { assert (Hnone : ∀ n start, ¬ (start ≤ label < start + n) →
        sum_list ((λ i, length (filter (λ c, c = i) (label :: clusters)))
                    <$> seq start n)
        = sum_list ((λ i, length (filter (λ c, c = i) clusters))
                      <$> seq start n)).
      { induction n as [|n IHn]; intros start Hout; simpl; [done|].
        rewrite filter_cons_False by lia. rewrite IHn by lia. done. }
      intros start n Hin. split; [|intros; by apply Hnone].
      revert start Hin. induction n as [|n IHn]; intros start Hin; [lia|].
      simpl. destruct (decide (label = start)) as [->|Hne].
      - rewrite filter_cons_True by done. rewrite Hnone by lia. done.
      - rewrite filter_cons_False by done. rewrite IHn by lia.
        by rewrite Nat.add_succ_r. }
    destruct (Hone 0 k) as [-> _]; [lia|done].
Qed.

Lemma make_stations_cluster_sizes precinct_num centers clusters :
  cluster_size <$> make_stations precinct_num centers clusters
  = (λ i, length (filter (λ c, c = i) clusters)) <$> seq 0 (length centers).
Proof.
  apply list_eq. intros i. unfold make_stations.
  rewrite !list_lookup_fmap, list_lookup_imap.
  destruct (centers !! i) as [center|] eqn:Hc; simpl.
  - rewrite lookup_seq_lt by (by eapply lookup_lt_Some). done.
  - rewrite lookup_seq_ge by (by apply lookup_ge_None). done.
Qed.

(** X7: with labels that are the indices of the centers, one per point, the
    cluster sizes of the stations of an eligible precinct add up to the
    number of its points. *)
Theorem cluster_sizes_cover_the_points k patrol_points constable_precincts
    stations precinct :
  labels_contract →
  optimize_patrol_stations patrol_points constable_precincts k
    = Returns stations →
  precinct ∈ constable_precincts →
  k ≤ length (filter (λ p, point_precinct p = PCT_NUM precinct) patrol_points) →
  sum_list (cluster_size
    <$> filter (λ s, station_precinct s = PCT_NUM precinct) stations)
  = length (filter (λ p, point_precinct p = PCT_NUM precinct) patrol_points).
Proof.
  intros Hlabels [Hrun _]%optimize_patrol_stations_returns Hin Hlen.
  destruct (optimize_loop_blocks _ _ _ _ _ Hrun) as (blocks & -> & Hblocks).
  simpl.
  destruct (blocks_of_precinct k patrol_points _ blocks (PCT_NUM precinct)
              (NoDup_unique _) Hblocks) as [[Hout _]|[_ Hblock]].
  { destruct Hout. apply elem_of_unique, list_elem_of_fmap. eauto. }
  destruct Hblock as [[Hlt _]|(_ & centers & clusters & Hfit & ->)]; [lia|].
  destruct (Hlabels _ _ _ _ Hfit) as [Hn Hrange].
  rewrite make_stations_cluster_sizes, count_labels by done.
  by rewrite Hn, length_fmap.
Qed.
End placement_more.

Lemma first_centers_labels : labels_contract.
Proof.
  intros k coords centers clusters. simpl.
  case_decide as Hk; [|done]. intros [= <- <-].
  rewrite length_fmap, length_seq, length_take. split; [done|].
  apply Forall_fmap, Forall_forall. intros i _. simpl.
  replace (k `min` length coords) with k by lia.
  apply Nat.mod_upper_bound. lia.
Qed.

Lemma station_ids_all_distinct_witness :
  ∃ stations,
    optimize_patrol_stations Sample.patrol_points Sample.constable_precincts 3
      = Returns stations
    ∧ NoDup (station_id <$> stations).
Proof.
  eexists. split; [vm_compute; reflexivity|].
  apply (station_ids_all_distinct 3 Sample.patrol_points
           Sample.constable_precincts).
  vm_compute. reflexivity.
Defined.

Lemma stations_only_in_eligible_precincts_witness :
  ∃ stations station,
    optimize_patrol_stations Sample.patrol_points Sample.constable_precincts 8
      = Returns stations
    ∧ stations !! 0%nat = Some station
    ∧ station_precinct station ∈ PCT_NUM <$> Sample.constable_precincts
    ∧ 8 ≤ length (filter (λ p, point_precinct p = station_precinct station)
                         Sample.patrol_points).
Proof.
  eexists _, _. split; [vm_compute; reflexivity|]. split; [reflexivity|].
  eapply (stations_only_in_eligible_precincts 8 Sample.patrol_points
            Sample.constable_precincts).
  - vm_compute. reflexivity.
  - left.
Defined.


Lemma cluster_sizes_cover_the_points_witness :
  ∃ stations,
    optimize_patrol_stations Sample.patrol_points Sample.constable_precincts 3
      = Returns stations
    ∧ sum_list (cluster_size
        <$> filter (λ s, station_precinct s = PCT_NUM Sample.precinct2) stations)
      = length (filter (λ p, point_precinct p = PCT_NUM Sample.precinct2)
                       Sample.patrol_points).
Proof.
  eexists. split; [vm_compute; reflexivity|].
  apply (cluster_sizes_cover_the_points 3 Sample.patrol_points
           Sample.constable_precincts).
  - apply first_centers_labels.
  - vm_compute. reflexivity.
  - right. left.
  - vm_compute. lia.
Defined.

(** * Stage 1, continued *)

Section generation_more.
Context {geometry : Type} `{Shapely geometry} `{!Pandas float}.
Variable draws : nat → float.
Implicit Types (precinct : Precinct geometry) (points : list PatrolPoint).
Implicit Types (constable_precincts rows : list (Precinct geometry)).

Import F64 F64_facts F64_more_facts.

(** The identifier of a point tells its precinct and its 1-based position
    in the list of the loop. *)
Lemma rejection_loop_ids fuel precinct quota points pos points' pos' :
  rejection_loop draws fuel precinct quota points pos = Returns (points', pos') →
  (∀ i p, points !! i = Some p →
     patrol_id p = "P" +:+ pretty (PCT_NUM precinct) +:+ "_"
                   +:+ pretty (Z.of_nat i + 1)%Z) →
  ∀ i p, points' !! i = Some p →
    patrol_id p = "P" +:+ pretty (PCT_NUM precinct) +:+ "_"
                  +:+ pretty (Z.of_nat i + 1)%Z.
Proof.
  revert points pos. induction fuel as [|fuel IH]; intros points pos; simpl.
  - case_bool_decide; [done|]. by intros [= <- <-].
  - case_bool_decide; [|by intros [= <- <-]].
    destruct (candidate draws precinct pos) as [point pos1].
    destruct (contains (precinct_geometry precinct) point); [|apply IH].
    intros Hrun Hids. eapply IH; [exact Hrun|].
    intros i p Hp. apply lookup_app_Some in Hp as [Hp|[Hlen Hp]]; [by apply Hids|].
    apply list_lookup_singleton_Some in Hp as [Hi <-]. simpl.
    by replace i with (length points) by lia.
Qed.

Lemma generate_rows_ids fuel num_points constable_precincts rows
    all_points pos points pos' :
  generate_rows draws fuel num_points constable_precincts rows all_points pos
    = Returns (points, pos') →
  ∃ chunks, points = all_points ++ concat chunks
    ∧ Forall2 (λ precinct chunk,
        precinct_chunk num_points constable_precincts precinct chunk
        ∧ ∀ i id, (patrol_id <$> chunk) !! i = Some id →
            id = "P" +:+ pretty (PCT_NUM precinct) +:+ "_"
                 +:+ pretty (Z.of_nat i + 1)%Z) rows chunks.
Proof.
  revert all_points pos.
  induction rows as [|precinct rows IH]; intros all_points pos; simpl.
  - intros [= <- <-]. exists []. by rewrite app_nil_r.
  - destruct (precinct_quota _ _ _) as [quota|] eqn:Hq; [|done].
    destruct (rejection_loop draws fuel precinct quota [] pos)
      as [[chunk pos1]| |] eqn:Hloop; simpl; [|done..].
    intros Hrun. apply IH in Hrun as (chunks & -> & Hchunks).
    exists (chunk :: chunks). split; [by rewrite <-app_assoc|].
    constructor; [|done]. split.
    + unfold precinct_quota in Hq.
      destruct (F64.to_int _) as [n|] eqn:Hn; simpl in Hq; [|done].
      injection Hq as <-.
      apply rejection_loop_returns in Hloop as (added & -> & Hlen & Hc & Ht);
        [|simpl; lia].
      by exists n.
    + intros i id. rewrite list_lookup_fmap.
      destruct (chunk !! i) as [p|] eqn:Hp; [|done]. intros [= <-].
      by apply (rejection_loop_ids _ _ _ _ _ _ _ Hloop).
Qed.

(** X1: the identifiers of the points are pairwise distinct over the whole
    result, and the points of a precinct are numbered from 1 in the order in
    which they were accepted. *)
Theorem patrol_ids_all_distinct fuel num_points constable_precincts pos
    points pos' :
  NoDup (PCT_NUM <$> constable_precincts) →
  generate_patrol_points draws fuel constable_precincts num_points pos
    = Returns (points, pos') →
  NoDup (patrol_id <$> points)
  ∧ ∀ precinct i p, precinct ∈ constable_precincts →
      filter (λ p, point_precinct p = PCT_NUM precinct) points !! i = Some p →
      patrol_id p = "P" +:+ pretty (PCT_NUM precinct) +:+ "_"
                    +:+ pretty (Z.of_nat i + 1)%Z.
Proof.
  intros Hnd [Hrun _]%generate_patrol_points_returns.
  apply generate_rows_ids in Hrun as (chunks & -> & Hchunks). simpl. split.
  - rewrite fmap_concat.
    apply (NoDup_formatted_ids "P" (PCT_NUM <$> constable_precincts)); [done|].
    apply Forall2_fmap. eapply Forall2_impl; [exact Hchunks|].
    by intros precinct chunk [_ Hids].
  - intros precinct i p Hin Hp.
    apply list_elem_of_lookup in Hin as [j Hj].
    destruct (Forall2_lookup_l _ _ _ _ _ Hchunks Hj)
      as (chunk & Hchunk & _ & Hids).
    rewrite (filter_concat_tagged point_precinct
               (PCT_NUM <$> constable_precincts) chunks j (PCT_NUM precinct)
               chunk) in Hp; try done.
    + apply Hids. by rewrite list_lookup_fmap, Hp.
    + apply Forall2_fmap_l. eapply Forall2_impl; [exact Hchunks|].
      by intros q c [(n & _ & _ & _ & Ht) _].
    + by rewrite list_lookup_fmap, Hj.
Qed.

Lemma length_chunks num_points constable_precincts rows chunks :
  Forall2 (precinct_chunk num_points constable_precincts) rows chunks →
  5 * length rows ≤ length (concat chunks)
  ∧ (num_points = 0%Z → length (concat chunks) = 5 * length rows).
Proof.
  induction 1 as [|precinct chunk rows chunks (n & Hn & Hlen & _) _ [IH1 IH2]];
    simpl; [done|].
  rewrite length_app. split; [lia|].
  intros ->. rewrite IH2 by done.
  change (F64.of_Z 0) with 0%float in Hn.
  apply to_int_zero_mul in Hn as ->. lia.
Qed.

(** X2: the budget is no cap: whatever [num_points] is, a run that returns has
    at least 5 points per precinct row, and with a budget of 0 it has
    exactly 5 per row. *)
Theorem floor_of_five_per_precinct fuel num_points constable_precincts pos
    points pos' :
  generate_patrol_points draws fuel constable_precincts num_points pos
    = Returns (points, pos') →
  5 * length constable_precincts ≤ length points
  ∧ (num_points = 0%Z → length points = 5 * length constable_precincts).
Proof.
  intros [Hrun _]%generate_patrol_points_returns.
  apply generate_rows_returns in Hrun as (chunks & -> & Hchunks). simpl.
  by eapply length_chunks.
Qed.

(** X3: when the areas sum to zero (all of them zero or missing, say),
    [area_proportion] is infinite or NaN and [int()] raises for the first
    precinct, before any draw and whatever the fuel. *)
Theorem zero_total_area_raises fuel num_points precinct rows pos :
  (series_sum (precinct_area_sq_km <$> precinct :: rows) =? 0)%float = true →
  ∃ e, generate_patrol_points draws fuel (precinct :: rows) num_points pos
       = Raises e.
Proof.
  intros Hzero.
  exists (int_error (budget_share num_points (precinct :: rows) precinct)).
  unfold generate_patrol_points. simpl. unfold precinct_quota.
  rewrite to_int_inf_or_nan; [done|]. unfold budget_share.
  apply inf_or_nan_mul, div_by_zero.
  rewrite FloatAxioms.eqb_spec in Hzero. unfold SFeqb in Hzero.
  change (Prim2SF 0) with (S754_zero false) in Hzero.
  destruct (Prim2SF (series_sum _)) as [[]|s| |s m e]; try done; auto.
  all: by destruct s.
Qed.

(** X4: A precinct whose area is missing (NaN) keeps the generation from
    returning: its [int()] raises. *)
Theorem nan_area_never_returns fuel num_points constable_precincts precinct
    pos :
  precinct ∈ constable_precincts →
  PrimFloat.is_nan (precinct_area_sq_km precinct) = true →
  ∀ result,
    generate_patrol_points draws fuel constable_precincts num_points pos
    ≠ Returns result.
Proof.
  intros Hin Hnan [points pos'] [Hrun _]%generate_patrol_points_returns.
  apply generate_rows_returns in Hrun as (chunks & _ & Hchunks).
  apply list_elem_of_lookup in Hin as [i Hi].
  destruct (Forall2_lookup_l _ _ _ _ _ Hchunks Hi)
    as (chunk & _ & n & Hn & _).
  rewrite to_int_inf_or_nan in Hn; [done|].
  by apply inf_or_nan_mul, nan_div.
Qed.

End generation_more.

Lemma patrol_ids_all_distinct_witness :
  ∃ points pos',
    generate_patrol_points Sample.draws 200 Sample.constable_precincts 100 0
      = Returns (points, pos')
    ∧ NoDup (patrol_id <$> points)
    ∧ ∀ precinct i p, precinct ∈ Sample.constable_precincts →
        filter (λ p, point_precinct p = PCT_NUM precinct) points !! i = Some p →
        patrol_id p = "P" +:+ pretty (PCT_NUM precinct) +:+ "_"
                      +:+ pretty (Z.of_nat i + 1)%Z.
Proof.
  eexists _, _. split; [vm_compute; reflexivity|].
  eapply (patrol_ids_all_distinct Sample.draws 200 100
            Sample.constable_precincts 0).
  - apply (bool_decide_unpack _). vm_compute. reflexivity.
  - vm_compute. reflexivity.
Defined.

Lemma floor_of_five_per_precinct_witness :
  ∃ points pos',
    generate_patrol_points Sample.draws 200 Sample.constable_precincts 0 0
      = Returns (points, pos')
    ∧ 5 * length Sample.constable_precincts ≤ length points
    ∧ (0%Z = 0%Z → length points = 5 * length Sample.constable_precincts).
Proof.
  eexists _, _. split; [vm_compute; reflexivity|].
  eapply (floor_of_five_per_precinct Sample.draws 200 0
            Sample.constable_precincts 0).
  vm_compute. reflexivity.
Defined.

Lemma zero_total_area_raises_witness :
  let unmeasured (precinct : Precinct Sample.Triangle) :=
    {| PCT_NUM := PCT_NUM precinct;
       precinct_geometry := precinct_geometry precinct;
       precinct_area_sq_km := nan |} in
  ∃ e, generate_patrol_points Sample.draws 200
         [unmeasured Sample.precinct1; unmeasured Sample.precinct2] 100 0
       = Raises e.
Proof.
  intros unmeasured.
  apply (zero_total_area_raises Sample.draws 200 100
           (unmeasured Sample.precinct1) [unmeasured Sample.precinct2] 0).
  vm_compute. reflexivity.
Defined.


Lemma nan_area_never_returns_witness :
  let unmeasured : Precinct Sample.Triangle :=
    {| PCT_NUM := 3;
       precinct_geometry := precinct_geometry Sample.precinct2;
       precinct_area_sq_km := nan |} in
  generate_patrol_points Sample.draws 200
    [Sample.precinct1; unmeasured] 100 0 ≠ Returns ([], 0).
Proof.
  intros unmeasured.
  apply (nan_area_never_returns Sample.draws 200 100
           [Sample.precinct1; unmeasured] unmeasured 0).
  - right. left.
  - vm_compute. reflexivity.
Defined.

(** * Stage 3, continued *)

Section assignment_more.
Context {geometry A : Type} `{Shapely geometry} `{Dtype A}.
Context `{!Pandas A} `{!Pandas float}.
Implicit Types (zipcode : Zone geometry A) (station : Station).
Implicit Types (patrol_stations : list Station).
Implicit Types (zipcodes : list (Zone geometry A)).

Import F64 F64_facts F64_more_facts.
Local Open Scope float_scope.

(** What the inner loop keeps, whatever the distances are (NaN and
    infinities included). *)
Lemma nearest_scan_any zipcode patrol_stations :
  let '(min_dist, nearest) := nearest_scan zipcode patrol_stations in
  Forall (λ s, (station_distance zipcode s <? min_dist) = false) patrol_stations
  ∧ ((nearest = None ∧ min_dist = infinity)
     ∨ ∃ s, s ∈ patrol_stations ∧ nearest = Some (station_id s)
         ∧ min_dist = station_distance zipcode s
         ∧ (min_dist <? infinity) = true).
Proof.
  unfold nearest_scan.
  induction patrol_stations as [|station seen IH] using rev_ind; simpl.
  - split; [constructor|]. by left.
  - rewrite foldl_snoc.
    destruct (foldl (scan_step zipcode) (infinity, None) seen)
      as [min_dist nearest].
    destruct IH as [Hmin Hacc]. simpl.
    destruct (station_distance zipcode station <? min_dist) eqn:Hlt.
    + split.
      * apply Forall_app. split; [|apply Forall_singleton, ltb_irrefl].
        eapply Forall_impl; [exact Hmin|]. intros s Hs. simpl in Hs.
        destruct (station_distance zipcode s <? station_distance zipcode station)
          eqn:E; [|done].
        pose proof (ltb_trans _ _ _ E Hlt). congruence.
      * right. exists station. split; [apply elem_of_app; right; by left|].
        split; [done|]. split; [done|].
        destruct Hacc as [[_ ->]|(s & _ & _ & _ & Hinf)]; [done|].
        by eapply ltb_trans.
    + split.
      * apply Forall_app. split; [done|]. by apply Forall_singleton.
      * destruct Hacc as [?|(s & Hs & ?)]; [by left|].
        right. exists s. split; [|done]. apply elem_of_app. by left.
Qed.

(** X8: the scan of a zip code, whatever the distances are: no station is
    strictly nearer than the distance kept; the zip code stays without a
    station exactly when no station is at a distance below infinity; and a
    station at a NaN distance is never the one recorded by the scan. *)
Theorem nearest_scan_with_any_distances zipcode patrol_stations :
  Forall (λ s, (station_distance zipcode s
                <? (nearest_scan zipcode patrol_stations).1) = false)
         patrol_stations
  ∧ ((nearest_scan zipcode patrol_stations).2 = None
     ↔ Forall (λ s, (station_distance zipcode s <? infinity) = false)
              patrol_stations)
  ∧ (∀ id, (nearest_scan zipcode patrol_stations).2 = Some id →
       ∃ s, s ∈ patrol_stations ∧ id = station_id s
         ∧ (nearest_scan zipcode patrol_stations).1
           = station_distance zipcode s
         ∧ PrimFloat.is_nan (station_distance zipcode s) = false).
Proof.
  pose proof (nearest_scan_any zipcode patrol_stations) as Hscan.
  destruct (nearest_scan zipcode patrol_stations) as [min_dist nearest].
  destruct Hscan as [Hmin Hacc]. simpl. split; [done|]. split.
  - split.
    + intros ->. destruct Hacc as [[_ ->]|(s & _ & ? & _)]; done.
    + intros Hall. destruct Hacc as [[-> _]|(s & Hs & _ & -> & Hinf)]; [done|].
      eapply Forall_forall in Hall; [|exact Hs]. congruence.
  - intros id ->. destruct Hacc as [[? _]|(s & Hs & [= ->] & -> & Hinf)]; [done|].
    exists s. repeat split; try done. by eapply ltb_not_nan.
Qed.

(** The dictionary of lines 188-189 gives the precinct of every station when
    the station ids are distinct. *)
Lemma build_station_precincts_lookup patrol_stations station :
  NoDup (station_id <$> patrol_stations) →
  station ∈ patrol_stations →
  build_station_precincts patrol_stations !! station_id station
  = Some (station_precinct station).
Proof.
  unfold build_station_precincts.
  induction patrol_stations as [|s ss IH] using rev_ind; intros Hnd Hin.
  - by apply elem_of_nil in Hin.
  - rewrite foldl_snoc. rewrite fmap_app in Hnd.
    apply NoDup_app in Hnd as (Hnd & Hdisj & _).
    apply elem_of_app in Hin as [Hin|Hin].
    + rewrite lookup_insert_ne; [by apply IH|].
      intros Heq. apply (Hdisj (station_id station)).
      * apply list_elem_of_fmap. eauto.
      * rewrite <-Heq. simpl. by left.
    + apply list_elem_of_singleton in Hin as ->. by rewrite lookup_insert_eq.
Qed.

(** X9: with distinct station ids, the precinct recorded for a zip code is the
    precinct of the station recorded for it, and a zip code without a
    station has no precinct. *)
Theorem zone_precinct_is_the_station_precinct patrol_stations zipcodes served :
  NoDup (station_id <$> patrol_stations) →
  served ∈ (analyze_service_coverage patrol_stations zipcodes).2 →
  (nearest_station served = None → zone_precinct served = None)
  ∧ ∀ station, station ∈ patrol_stations →
      nearest_station served = Some (station_id station) →
      zone_precinct served = Some (station_precinct station).
Proof.
  intros Hnd Hin. unfold analyze_service_coverage in Hin. simpl in Hin.
  unfold add_service_columns in Hin.
  destruct (assign_zipcodes patrol_stations zipcodes) as [distances assignments].
  apply list_elem_of_fmap in Hin as (zipcode & -> & _). simpl. split.
  - by intros ->.
  - intros station Hs ->. simpl.
    by apply build_station_precincts_lookup.
Qed.

(** X10: zip codes that share a ZIP share one dictionary entry: all of them get
    what the scan computed for the last of them. *)
Theorem last_zip_code_of_a_zip_wins patrol_stations before zipcode after
    i other :
  ZIP zipcode ∉ ZIP <$> after →
  (before ++ zipcode :: after) !! i = Some other →
  ZIP other = ZIP zipcode →
  ∃ served,
    (analyze_service_coverage patrol_stations
       (before ++ zipcode :: after)).2 !! i = Some served
    ∧ zone served = other
    ∧ nearest_station served = (nearest_scan zipcode patrol_stations).2
    ∧ distance_km served = (nearest_scan zipcode patrol_stations).1 / 1000.
Proof.
  intros Hlast Hi HZIP.
  assert (Hkey : ∀ (zs : list (Zone geometry A)) acc,
    ZIP zipcode ∉ ZIP <$> zs →
    (foldl (assign_step patrol_stations) acc zs).1 !! ZIP zipcode
      = acc.1 !! ZIP zipcode
    ∧ (foldl (assign_step patrol_stations) acc zs).2 !! ZIP zipcode
      = acc.2 !! ZIP zipcode).
  { induction zs as [|z zs IH]; intros acc Hout; [done|]. simpl.
    rewrite fmap_cons in Hout. apply not_elem_of_cons in Hout as [Hne Hout].
    destruct (IH (assign_step patrol_stations acc z) Hout) as [-> ->].
    unfold assign_step. destruct acc as [distances assignments].
    destruct (nearest_scan z patrol_stations) as [min_dist nearest]. simpl.
    by rewrite !lookup_insert_ne. }
  unfold analyze_service_coverage. simpl. unfold add_service_columns.
  unfold assign_zipcodes. rewrite foldl_app. simpl.
  destruct (Hkey after (assign_step patrol_stations
              (foldl (assign_step patrol_stations) (∅, ∅) before) zipcode)
              Hlast) as [Hd Ha].
  destruct (foldl (assign_step patrol_stations)
              (assign_step patrol_stations
                 (foldl (assign_step patrol_stations) (∅, ∅) before) zipcode)
              after) as [distances assignments].
  simpl in Hd, Ha. rewrite list_lookup_fmap, Hi. simpl.
  eexists. split; [done|]. simpl. rewrite HZIP, Hd, Ha.
  destruct (foldl (assign_step patrol_stations) (∅, ∅) before)
    as [distances0 assignments0].
  unfold assign_step.
  destruct (nearest_scan zipcode patrol_stations) as [min_dist nearest].
  simpl. by rewrite !lookup_insert_eq.
Qed.
End assignment_more.

Section service_area_more.
Context {geometry A : Type} `{Shapely geometry} `{Dtype A}.
Context `{!Pandas A} `{!Pandas float}.
Implicit Types (patrol_stations : list Station).
Implicit Types (zipcodes : list (Zone geometry A)).
Implicit Types (served : list (ServedZone geometry A)).

Lemma merge_service_area_count served station :
  zipcode_count (merge_service_area (groupby_nearest_station served) station)
  = Z.of_nat (length
      (filter (λ z, nearest_station z = Some (station_id station)) served)).
Proof.
  rewrite <-groupby_nearest_station_lookup. unfold merge_service_area.
  by destruct (groupby_nearest_station served !! station_id station).
Qed.

Lemma merge_service_area_empty served station :
  filter (λ z, nearest_station z = Some (station_id station)) served = [] →
  merge_service_area (groupby_nearest_station served) station
  = {| station := station; service_area_sq_km := dzero;
       avg_distance_km := 0%float; zipcode_count := 0 |}.
Proof.
  rewrite <-groupby_nearest_station_lookup. unfold merge_service_area.
  destruct (groupby_nearest_station served !! station_id station)
    as [rows|] eqn:Hrows; [|done].
  simpl. intros ->. by apply groupby_nearest_station_nonempty in Hrows.
Qed.

(** X11: the left merge keeps every station, in order; its [zipcode_count] is
    the number of zip codes recorded with its id; and a station with which
    no zip code is recorded gets 0 for the three metrics. *)
Theorem station_metrics_of_every_station patrol_stations zipcodes i
    (patrol_station : Station) :
  patrol_stations !! i = Some patrol_station →
  let result := analyze_service_coverage patrol_stations zipcodes in
  let assigned :=
    filter (λ z, nearest_station z = Some (station_id patrol_station))
           result.2 in
  ∃ row, result.1 !! i = Some row
    ∧ station row = patrol_station
    ∧ zipcode_count row = Z.of_nat (length assigned)
    ∧ (assigned = [] →
       service_area_sq_km row = dzero ∧ avg_distance_km row = 0%float).
Proof.
  intros Hi result assigned. subst result assigned.
  unfold analyze_service_coverage. simpl.
  rewrite list_lookup_fmap, Hi. simpl. eexists. split; [done|].
  split; [|split].
  - unfold merge_service_area.
    by destruct (groupby_nearest_station _ !! station_id patrol_station).
  - apply merge_service_area_count.
  - intros Hnone. by rewrite merge_service_area_empty.
Qed.

Lemma zipcode_counts_sum patrol_stations served :
  series_sum ((λ s, Z.of_nat (length
      (filter (λ z, nearest_station z = Some (station_id s)) served)))
    <$> patrol_stations)
  = Z.of_nat (length (concat
      ((λ s, filter (λ z, nearest_station z = Some (station_id s)) served)
         <$> patrol_stations))).
Proof.
  induction patrol_stations as [|s ss IH]; [done|].
  rewrite !fmap_cons, series_sum_cons, IH, concat_cons, length_app.
  simpl. lia.
Qed.

(** X12: with at least one station, distinct station ids and finite distances,
    the [zipcode_count] of the stations add up to the number of zip
    codes. *)
Theorem zipcode_counts_sum_to_the_zip_codes patrol_stations zipcodes :
  patrol_stations ≠ [] →
  NoDup (station_id <$> patrol_stations) →
  finite_distances patrol_stations zipcodes →
  series_sum (zipcode_count
                <$> (analyze_service_coverage patrol_stations zipcodes).1)
  = Z.of_nat (length zipcodes).
Proof.
  intros Hne Hnd Hfin. unfold analyze_service_coverage. cbn [fst].
  rewrite <-list_fmap_compose.
  erewrite (list_fmap_ext _ _ patrol_stations);
    [|intros i s _; apply merge_service_area_count].
  rewrite zipcode_counts_sum, groups_partition;
    [|done|by apply add_service_columns_assigned].
  rewrite <-(add_service_columns_zone patrol_stations zipcodes) at 2.
  by rewrite length_fmap.
Qed.
End service_area_more.

Example nearest_scan_with_a_nan_centroid :
  let lost : Zone Sample.Triangle float :=
    Sample.zone_at "77099" nan 0 1%float in
  nearest_scan lost Sample.patrol_stations = (infinity, None).
Proof. vm_compute. reflexivity. Qed.

Lemma zone_precinct_is_the_station_precinct_witness :
  ∃ served,
    (analyze_service_coverage Sample.patrol_stations Sample.zipcodes).2 !! 0%nat
      = Some served
    ∧ (nearest_station served = None → zone_precinct served = None)
    ∧ ∀ station, station ∈ Sample.patrol_stations →
        nearest_station served = Some (station_id station) →
        zone_precinct served = Some (station_precinct station).
Proof.
  eexists. split; [vm_compute; reflexivity|].
  apply (zone_precinct_is_the_station_precinct Sample.patrol_stations
           Sample.zipcodes).
  - apply (bool_decide_unpack _). vm_compute. reflexivity.
  - vm_compute. left.
Defined.

Lemma last_zip_code_of_a_zip_wins_witness :
  let first := Sample.zone_at "77001" 0 0 12.5%float in
  let last := Sample.zone_at "77001" 9000 300 7.25%float in
  ∃ served,
    (analyze_service_coverage Sample.patrol_stations
       ([] ++ first :: [last])).2 !! 0%nat = Some served
    ∧ zone served = first
    ∧ nearest_station served = (nearest_scan last Sample.patrol_stations).2
    ∧ distance_km served
      = ((nearest_scan last Sample.patrol_stations).1 / 1000)%float.
Proof.
  intros first last.
  apply (last_zip_code_of_a_zip_wins Sample.patrol_stations [first] last []
           0 first).
  - apply not_elem_of_nil.
  - reflexivity.
  - reflexivity.
Defined.

Lemma station_metrics_of_every_station_witness :
  let result :=
    analyze_service_coverage Sample.patrol_stations Sample.zipcodes in
  ∃ row, result.1 !! 2%nat = Some row
    ∧ station_id (station row) = "S2_1"
    ∧ zipcode_count row = 0%Z
    ∧ service_area_sq_km row = 0%float ∧ avg_distance_km row = 0%float.
Proof.
  intros result.
  destruct (station_metrics_of_every_station Sample.patrol_stations
              Sample.zipcodes 2
              {| station_geometry := (3000, 4000)%float; station_precinct := 2;
                 station_id := "S2_1"; cluster_size := 4 |})
    as (row & Hrow & Hstation & Hcount & Hzero); [reflexivity|].
  exists row. split; [exact Hrow|]. rewrite Hstation. split; [done|].
  split; [exact Hcount|]. apply Hzero. vm_compute. reflexivity.
Defined.

Lemma zipcode_counts_sum_to_the_zip_codes_witness :
  series_sum (zipcode_count
    <$> (analyze_service_coverage Sample.patrol_stations Sample.zipcodes).1)
  = Z.of_nat (length Sample.zipcodes).
Proof.
  apply (zipcode_counts_sum_to_the_zip_codes Sample.patrol_stations
           Sample.zipcodes).
  - done.
  - apply (bool_decide_unpack _). vm_compute. reflexivity.
  - unfold finite_distances. apply (bool_decide_unpack _).
    vm_compute. reflexivity.
Defined.

(** * Stage 4, continued *)

Section equity_more.
Context {geometry : Type} `{Shapely geometry} `{!Pandas float}.
Implicit Types zipcodes : list (ServedZone geometry float).

Import F64 F64_facts F64_more_facts.
Local Open Scope float_scope.

Lemma analyze_without_stations (zipcodes : list (Zone geometry float)) :
  (analyze_service_coverage [] zipcodes).2
  = (λ zipcode, {| zone := zipcode; nearest_station := None;
                   distance_km := infinity; zone_precinct := None |})
      <$> zipcodes.
Proof.
  unfold analyze_service_coverage. simpl.
  apply list_eq. intros i. rewrite list_lookup_fmap.
  destruct (zipcodes !! i) as [zipcode|] eqn:Hi; simpl.
  - by destruct (add_service_columns_lookup [] zipcodes i zipcode Hi)
      as (last & _ & _ & ->).
  - apply lookup_ge_None. apply lookup_ge_None in Hi.
    by rewrite <-(add_service_columns_zone [] zipcodes), length_fmap in Hi.
Qed.

Lemma np_sum_inf_or_nan_from acc (a : list float) :
  inf_or_nan acc = true →
  Forall (λ x, inf_or_nan x = true) a →
  inf_or_nan (foldl PrimFloat.add acc a) = true.
Proof.
  intros Hacc Ha. revert acc Hacc.
  induction Ha as [|x a Hx _ IH]; intros acc Hacc; simpl; [done|].
  apply IH, inf_or_nan_add; auto.
Qed.

Lemma np_sum_inf_or_nan (a : list float) :
  a ≠ [] → Forall (λ x, inf_or_nan x = true) a → inf_or_nan (np_sum a) = true.
Proof.
  intros Hne Ha. destruct Ha as [|x a Hx Ha]; [done|].
  unfold np_sum. simpl. apply np_sum_inf_or_nan_from; [|done].
  apply inf_or_nan_add; [by right|done].
Qed.

Lemma np_sort_infinities (a : list float) :
  Forall (λ d, d = infinity) a → np_sort a = a.
Proof.
  induction 1 as [|d a -> Ha IH]; [done|].
  unfold np_sort in *. simpl. rewrite IH.
  destruct Ha as [|d' a' -> _]; done.
Qed.

(** The Gini-like coefficient of a column of infinite distances is NaN. *)
Lemma gini_of_infinities (a : list float) :
  Forall (λ d, d = infinity) a → PrimFloat.is_nan (gini_of a) = true.
Proof.
  intros Ha. destruct a as [|d a].
  { vm_compute. reflexivity. }
  unfold gini_of.
  assert (Hfilter : filter (λ d, PrimFloat.is_nan d = false) (d :: a) = d :: a).
  { induction Ha as [|x l -> _ IH]; [done|].
    by rewrite filter_cons_True, IH. }
  rewrite Hfilter, (np_sort_infinities _ Ha).
  assert (Hinf : Forall (λ x, inf_or_nan x = true) (d :: a)).
  { eapply Forall_impl; [exact Ha|]. by intros x ->. }
  apply inf_or_nan_div.
  - apply np_sum_inf_or_nan.
    + unfold np_arange1. by simpl.
    + generalize ((λ i, 2 * i - Z.of_nat (length (d :: a)) - 1)%Z
                    <$> np_arange1 (length (d :: a))).
      clear Ha Hfilter. induction Hinf as [|x l Hx _ IH]; intros [|w weights];
        simpl; try constructor; [by apply inf_or_nan_mul | apply IH].
  - by apply inf_or_nan_mul, np_sum_inf_or_nan.
Qed.

(** X13: without any station the pipeline still gives metrics: the Gini-like
    coefficient is NaN, and the coverage ratio is zero as soon as the total
    area is a non-zero number (NaN otherwise). *)
Theorem equity_metrics_without_stations
    (harris_county_zipcodes : list (Zone geometry float)) :
  let metrics :=
    calculate_equity_metrics
      (analyze_service_coverage [] harris_county_zipcodes).2 in
  PrimFloat.is_nan (gini_coefficient metrics) = true
  ∧ (finite_nonzero (series_sum (area_sq_km <$> harris_county_zipcodes)) = true →
     (coverage_ratio metrics =? 0) = true).
Proof.
  intros metrics. subst metrics. rewrite analyze_without_stations. split.
  - simpl. apply gini_of_infinities.
    rewrite <-list_fmap_compose. apply Forall_fmap, Forall_true. done.
  - intros Harea. simpl. rewrite coverage_ratio_at_spec.
    unfold spec_coverage_ratio.
    assert (Hnone : ∀ zs : list (Zone geometry float),
      filter (λ z : ServedZone geometry float,
                (distance_km z <=? F64.of_Z threshold_distance) = true)
        ((λ zipcode, {| zone := zipcode; nearest_station := None;
                        distance_km := infinity; zone_precinct := None |})
           <$> zs) = []).
    { induction zs as [|z zs IH]; [done|].
      rewrite fmap_cons, filter_cons_False; [done|].
      simpl. vm_compute. discriminate. }
    rewrite Hnone, <-list_fmap_compose. simpl.
    rewrite (list_fmap_ext _ area_sq_km harris_county_zipcodes) by done.
    rewrite series_sum_nil. by apply zero_div.
Qed.

(** [np.sort] on floats without NaN: a sorted rearrangement. *)
Lemma sorted_insert_Permutation x (a : list float) :
  sorted_insert x a ≡ₚ x :: a.
Proof.
  induction a as [|y a IH]; simpl; [done|].
  destruct (x <=? y); [done|]. by rewrite IH, Permutation_swap.
Qed.

Lemma np_sort_Permutation (a : list float) : np_sort a ≡ₚ a.
Proof.
  unfold np_sort. induction a as [|x a IH]; simpl; [done|].
  by rewrite sorted_insert_Permutation, IH.
Qed.

Lemma Sorted_sorted_insert x (a : list float) :
  PrimFloat.is_nan x = false →
  Forall (λ y, PrimFloat.is_nan y = false) a →
  Sorted (λ x y, (x <=? y) = true) a →
  Sorted (λ x y, (x <=? y) = true) (sorted_insert x a).
Proof.
  intros Hx Ha Hsorted.
  induction Hsorted as [|y a Hsorted IH Hhd]; simpl.
  - by repeat constructor.
  - apply Forall_cons in Ha as [Hy Ha].
    destruct (x <=? y) eqn:Hxy.
    + constructor; [by constructor|]. by constructor.
    + constructor; [by apply IH|].
      destruct Hhd as [|z a Hyz]; simpl.
      * constructor. by apply leb_total.
      * destruct (x <=? z); constructor; [by apply leb_total|done].
Qed.

Lemma Sorted_np_sort (a : list float) :
  Forall (λ y, PrimFloat.is_nan y = false) a →
  Sorted (λ x y, (x <=? y) = true) (np_sort a).
Proof.
  unfold np_sort. induction 1 as [|x a Hx Ha IH]; simpl; [constructor|].
  apply Sorted_sorted_insert; [done| |done].
  fold (np_sort a). by rewrite np_sort_Permutation.
Qed.

Lemma np_sort_of_Permutation (a b : list float) :
  Forall (λ y, PrimFloat.is_nan y = false) a →
  Forall not_neg_zero a →
  a ≡ₚ b → np_sort a = np_sort b.
Proof.
  intros Hnan Hzero Hperm.
  assert (Htrans : Transitive (λ x y : float, (x <=? y) = true)).
  { intros x y z. apply leb_trans. }
  apply (Sorted_unique_strong (λ x y : float, (x <=? y) = true)).
  - intros x y Hx Hy. apply leb_antisym.
    + eapply Forall_forall in Hzero; [exact Hzero|].
      by rewrite <-(np_sort_Permutation a).
    + eapply Forall_forall in Hzero; [exact Hzero|].
      by rewrite Hperm, <-(np_sort_Permutation b).
  - by apply Sorted_np_sort.
  - apply Sorted_np_sort. by rewrite <-Hperm.
  - by rewrite !np_sort_Permutation.
Qed.

(** X14: the Gini-like coefficient does not depend on the order of the zip
    codes (no distance being [-0.0]). *)
Theorem gini_ignores_the_order zipcodes zipcodes' :
  zipcodes ≡ₚ zipcodes' →
  Forall (λ z, not_neg_zero (distance_km z)) zipcodes →
  gini_coefficient (calculate_equity_metrics zipcodes)
  = gini_coefficient (calculate_equity_metrics zipcodes').
Proof.
  intros Hperm Hzero. simpl. unfold gini_of.
  assert (Hsort :
    np_sort (filter (λ d, PrimFloat.is_nan d = false) (distance_km <$> zipcodes))
    = np_sort (filter (λ d, PrimFloat.is_nan d = false)
                      (distance_km <$> zipcodes'))).
  { apply np_sort_of_Permutation.
    - apply list.Forall_forall. intros d Hd.
      by apply list_elem_of_filter in Hd as [? _].
    - apply list.Forall_forall. intros d Hd.
      apply list_elem_of_filter in Hd as [_ Hd].
      apply list_elem_of_fmap in Hd as (z & -> & Hz).
      eapply Forall_forall in Hzero; [exact Hzero|done].
    - by rewrite Hperm. }
  by rewrite Hsort.
Qed.
End equity_more.

Lemma equity_metrics_without_stations_witness :
  let metrics :=
    calculate_equity_metrics
      (analyze_service_coverage [] Sample.zipcodes).2 in
  PrimFloat.is_nan (gini_coefficient metrics) = true
  ∧ (coverage_ratio metrics =? 0)%float = true.
Proof.
  intros metrics.
  destruct (equity_metrics_without_stations Sample.zipcodes) as [Hgini Hratio].
  split; [exact Hgini|]. apply Hratio. vm_compute. reflexivity.
Defined.

Lemma gini_ignores_the_order_witness :
  gini_coefficient (calculate_equity_metrics Sample.served_zipcodes)
  = gini_coefficient (calculate_equity_metrics (reverse Sample.served_zipcodes)).
Proof.
  apply (gini_ignores_the_order Sample.served_zipcodes
           (reverse Sample.served_zipcodes)).
  - symmetry. apply reverse_Permutation.
  - repeat constructor; intros E; vm_compute in E; discriminate.
Defined.

(** * [calculate_areas] *)

(** X15: areas are computed once: a second call, even with another measure of
    area, changes nothing, so that an [area_sq_km] column that is already
    there is never overwritten. *)
Theorem calculate_areas_once {geometry : Type}
    (area_3857 other_area : geometry → float)
    (data_dict : gmap string (dataset (geometry := geometry))) :
  calculate_areas other_area (calculate_areas area_3857 data_dict)
  = calculate_areas area_3857 data_dict.
Proof.
  unfold calculate_areas. rewrite <-map_fmap_compose.
  apply map_fmap_ext. intros name gdf _. unfold compose.
  destruct gdf as [geometries [areas|]|]; reflexivity.
Qed.

(** * The first two stages together *)

Section pipeline_facts.
Context {geometry : Type} `{Shapely geometry} `{!Pandas float} `{Sklearn}.
Variable draws : nat → float.
Implicit Types (constable_precincts : list (Precinct geometry)).

Lemma filter_all {X : Type} (P : X → Prop) `{∀ x, Decision (P x)}
    (l : list X) :
  Forall P l → filter P l = l.
Proof.
  induction 1 as [|x l Hx _ IH]; [done|]. by rewrite filter_cons_True, IH.
Qed.

Lemma chunk_within_filter (tag : PatrolPoint → Z) (key : Z)
    (chunks : list (list PatrolPoint)) (i : nat) (chunk : list PatrolPoint) :
  chunks !! i = Some chunk →
  Forall (λ p, tag p = key) chunk →
  length chunk ≤ length (filter (λ p, tag p = key) (concat chunks)).
Proof.
  revert i. induction chunks as [|c chunks IH]; intros i Hi Htag; [done|].
  rewrite concat_cons, filter_app, length_app.
  destruct i as [|i]; simpl in Hi.
  - injection Hi as ->.
    rewrite (filter_all _ chunk Htag). lia.
  - pose proof (IH i Hi Htag). lia.
Qed.

(** After a generation that returns, every listed precinct number has at
    least 5 points. *)
Lemma generated_precincts_have_five fuel num_points constable_precincts pos
    patrol_points pos' :
  generate_patrol_points draws fuel constable_precincts num_points pos
    = Returns (patrol_points, pos') →
  constable_precincts ≠ []
  ∧ Forall (λ num,
      5 ≤ length (filter (λ p, point_precinct p = num) patrol_points))
      (unique (PCT_NUM <$> constable_precincts)).
Proof.
  intros [Hgen Hsome]%generate_patrol_points_returns.
  apply generate_rows_returns in Hgen as (chunks & -> & Hchunks).
  simpl in *. split.
  - intros ->. by apply Forall2_nil_inv_l in Hchunks as ->.
  - apply list.Forall_forall. intros num Hnum.
    apply elem_of_unique, list_elem_of_fmap in Hnum as (precinct & -> & Hin).
    apply list_elem_of_lookup in Hin as [i Hi].
    destruct (Forall2_lookup_l _ _ _ _ _ Hchunks Hi)
      as (chunk & Hchunk & n & _ & Hlen & _ & Htag).
    pose proof (chunk_within_filter point_precinct (PCT_NUM precinct)
                  chunks i chunk Hchunk Htag).
    lia.
Qed.

(** X16: the floor of 5 points makes every precinct eligible for up to 5
    stations, so the first two stages fit together as [main] chains them
    (200 points, then 3 stations per precinct).  Whenever the generation
    returns its points, the placement with between 1 and 5 stations per
    precinct, under scikit-learn's guarantee, returns as well (the frame of
    line 161 is not empty); it skips no precinct: every listed precinct owns
    exactly that many stations, the stations are that many times the
    distinct precinct numbers, and their ids are pairwise distinct. *)
Theorem no_precinct_skipped_after_generation fuel num_points
    constable_precincts pos patrol_points pos' k :
  kmeans_contract → 1 ≤ k ≤ 5 →
  generate_patrol_points draws fuel constable_precincts num_points pos
    = Returns (patrol_points, pos') →
  ∃ patrol_stations,
    optimize_patrol_stations patrol_points constable_precincts k
      = Returns patrol_stations
    ∧ (∀ precinct, precinct ∈ constable_precincts →
        length (filter (λ s, station_precinct s = PCT_NUM precinct)
                       patrol_stations) = k)
    ∧ length patrol_stations
      = k * length (unique (PCT_NUM <$> constable_precincts))
    ∧ NoDup (station_id <$> patrol_stations).
Proof.
  intros Hfit Hk [Hne Hfive]%generated_precincts_have_five.
  destruct (optimize_loop_returns k patrol_points
              (unique (PCT_NUM <$> constable_precincts)) [] Hfit)
    as [stations Hopt]; [lia|].
  pose proof (optimize_loop_ids_distinct _ _ _ _ (NoDup_unique _) Hopt) as Hids.
  destruct (optimize_loop_blocks _ _ _ _ _ Hopt) as (blocks & Hstations & Hblocks).
  simpl in Hstations.
  assert (Hlen : length stations
                 = k * length (unique (PCT_NUM <$> constable_precincts))).
  { rewrite Hstations.
    rewrite (length_blocks k patrol_points _ blocks Hfit) by (lia || done).
    rewrite filter_all; [done|].
    eapply Forall_impl; [exact Hfive|]. simpl. lia. }
  exists stations. split; [|split; [|done]].
  - unfold optimize_patrol_stations. rewrite Hopt. simpl.
    destruct stations as [|s stations]; [|done].
    destruct constable_precincts as [|precinct rows]; [done|].
    assert (Hin : PCT_NUM precinct
                  ∈ unique (PCT_NUM <$> precinct :: rows)).
    { apply elem_of_unique. rewrite fmap_cons. by left. }
    destruct (unique (PCT_NUM <$> precinct :: rows));
      [by apply elem_of_nil in Hin|].
    simpl in Hlen. lia.
  - rewrite Hstations. intros precinct Hin.
    assert (Hnum : PCT_NUM precinct ∈ unique (PCT_NUM <$> constable_precincts)).
    { apply elem_of_unique, list_elem_of_fmap. eauto. }
    destruct (blocks_of_precinct k patrol_points _ blocks (PCT_NUM precinct)
                (NoDup_unique _) Hblocks) as [[Hout _]|[_ Hblock]]; [done|].
    eapply Forall_forall in Hfive; [|exact Hnum]. simpl in Hfive.
    destruct Hblock as [[Hlt _]|(Hge & centers & clusters & Hrun & ->)]; [lia|].
    rewrite length_make_stations.
    destruct (Hfit k (point_geometry <$> filter
                (λ p, point_precinct p = PCT_NUM precinct) patrol_points))
      as (centers' & clusters' & Hrun' & <-); [rewrite length_fmap; lia|].
    rewrite Hrun in Hrun'. by injection Hrun' as -> _.
Qed.
End pipeline_facts.

Lemma no_precinct_skipped_after_generation_witness :
  ∃ patrol_points pos' patrol_stations,
    generate_patrol_points Sample.draws 400 Sample.constable_precincts 200 0
      = Returns (patrol_points, pos')
    ∧ optimize_patrol_stations patrol_points Sample.constable_precincts 3
      = Returns patrol_stations
    ∧ (∀ precinct, precinct ∈ Sample.constable_precincts →
        length (filter (λ s, station_precinct s = PCT_NUM precinct)
                       patrol_stations) = 3)
    ∧ length patrol_stations
      = 3 * length (unique (PCT_NUM <$> Sample.constable_precincts))
    ∧ NoDup (station_id <$> patrol_stations).
Proof.
  eexists _, _.
  destruct (no_precinct_skipped_after_generation Sample.draws 400 200
              Sample.constable_precincts 0
              (match generate_patrol_points Sample.draws 400
                       Sample.constable_precincts 200 0 with
               | Returns (points, _) => points
               | _ => []
               end)
              (match generate_patrol_points Sample.draws 400
                       Sample.constable_precincts 200 0 with
               | Returns (_, pos') => pos'
               | _ => 0
               end) 3)
    as (patrol_stations & Hstations).
  - apply first_centers_contract.
  - lia.
  - vm_compute. reflexivity.
  - exists patrol_stations. split; [vm_compute; reflexivity|exact Hstations].
Defined.

(** The run of [main]'s first two calls on the sample, with enough fuel. *)
Example sample_pipeline_counts :
  ∃ patrol_points pos' patrol_stations,
    generate_patrol_points Sample.draws 400 Sample.constable_precincts 200 0
      = Returns (patrol_points, pos')
    ∧ optimize_patrol_stations patrol_points Sample.constable_precincts 3
      = Returns patrol_stations
    ∧ length patrol_points = 199
    ∧ station_id <$> patrol_stations
      = ["S1_1"; "S1_2"; "S1_3"; "S2_1"; "S2_2"; "S2_3"].
Proof.
  eexists _, _, _. split; [vm_compute; reflexivity|].
  split; [vm_compute; reflexivity|]. split; vm_compute; reflexivity.
Qed.
